(** * Shallow embedding of the delta codec of delta.h

    [get_delta_hdr_size] is embedded from its C body in delta.h.
    [create_delta_index] and [create_delta] are only declared in delta.h;
    they are modelled from the specification of the codec. *)

From Stdlib Require Import ZArith List Lia Bool Strings.Byte.
Import ListNotations.

Open Scope Z_scope.

(** ** C integer semantics used by [get_delta_hdr_size] *)
Module CInt.

(** An [unsigned char] read from memory. *)
Definition uchar (b : byte) : Z := Z.of_N (Byte.to_N b).

Definition INT_MIN : Z := - 2 ^ 31.
Definition INT_MAX : Z := 2 ^ 31 - 1.
Definition INT_WIDTH : Z := 32.
Definition ULONG_MOD : Z := 2 ^ 64.

(** The value of an [int] expression; [None] is an undefined value (the
    result of a signed overflow or of a shift whose count is out of range,
    C11 6.5p5 and 6.5.7p3-4). *)
Definition int_val := option Z.

(** [a << n] on [int] operands (C11 6.5.7p4). *)
Definition int_shl (a : Z) (n : int_val) : int_val :=
  match n with
  | None => None
  | Some k =>
      if (k <? 0) || (INT_WIDTH <=? k) || (a <? 0) then None
      else if a * 2 ^ k <=? INT_MAX then Some (a * 2 ^ k) else None
  end.

(** [a + b] on [int] operands. *)
Definition int_add (a : int_val) (b : Z) : int_val :=
  match a with
  | None => None
  | Some x => if (INT_MIN <=? x + b) && (x + b <=? INT_MAX) then Some (x + b) else None
  end.

(** Conversion of an [int] to [unsigned long] (C11 6.3.1.3p2). *)
Definition ulong_of_int (v : Z) : Z := v mod ULONG_MOD.

(** [size |= v] with [size : unsigned long] and [v : int]. *)
Definition ulong_or_int (size : option Z) (v : int_val) : option Z :=
  match size, v with
  | Some s, Some x => Some (Z.lor s (ulong_of_int x))
  | _, _ => None
  end.

End CInt.

(** ** [get_delta_hdr_size] (delta.h, lines 65-79)

    The readable memory is the byte list [mem]; the pointers [*datap] and
    [top] are positions in it.  Reading [*data] at a position outside [mem]
    is an access outside the object. *)
Module Hdr.
Import CInt.

Inductive hdr_result : Type :=
  | Returned (size : option Z) (cursor : nat)  (* return value and final [*datap] *)
  | ReadOutsideBuffer.

(** The [do { ... } while] loop; [rest] is the memory from [data] on. *)
Fixpoint hdr_loop (rest : list byte) (data top : nat) (size : option Z) (i : int_val)
  : hdr_result :=
  match rest with
  | [] => ReadOutsideBuffer
  | b :: rest' =>
      let cmd := uchar b in                                  (* cmd = *data++;   *)
      let data' := S data in
      let size' := ulong_or_int size (int_shl (Z.land cmd (Z.lnot 128)) i) in
                                                             (* size |= (cmd & ~0x80) << i; *)
      let i' := int_add i 7 in                               (* i += 7;          *)
      if negb (Z.land cmd 128 =? 0) && (data' <? top)%nat    (* while (cmd & 0x80 && data < top) *)
      then hdr_loop rest' data' top size' i'
      else Returned size' data'                              (* *datap = data; return size; *)
  end.

Definition get_delta_hdr_size (mem : list byte) (datap top : nat) : hdr_result :=
  hdr_loop (skipn datap mem) datap top (Some 0) (Some 0).

End Hdr.

(** ** The header varint encoding of the specification (section 4.3) *)
Module Varint.
Import CInt.

(** The byte whose [unsigned char] value is [z mod 256]. *)
Definition byte_of (z : Z) : byte :=
  match Byte.of_N (Z.to_N (z mod 256)) with Some b => b | None => x00 end.

(** 7-bit groups, least significant first, continuation bit on all but the
    last byte. *)
Fixpoint varint_fuel (fuel : nat) (n : Z) : list byte :=
  match fuel with
  | O => []
  | S f =>
      if n <? 128 then [byte_of n]
      else byte_of (Z.lor (n mod 128) 128) :: varint_fuel f (n / 128)
  end.

Definition encode_varint (n : Z) : list byte :=
  varint_fuel (S (Z.to_nat (Z.log2 n))) n.

End Varint.

(** ** The match index (declared in delta.h, lines 9-41)

    [create_delta_index] has no body in the repository's sources: the index
    below is modelled from the specification (sections 3, 4.1 and 9). *)
Module Index.

Record source_info : Type := {
  buf : list byte;          (* the bytes at [buf] *)
  size : nat;               (* total length of source data *)
  agg_offset : nat          (* start of the data in the aggregate source *)
}.

(** The hash table, as the (hash, aggregate offset) pairs it holds in
    registration order, and the source buffers it was built from. *)
Record delta_index : Type := {
  entries : list (Z * nat);
  sources : list source_info
}.

(** The block stride [B]; the specification suggests 16 bytes. *)
Definition BLOCK : nat := 16.

Section WithHash.
(** The block hash, left open by the specification. *)
Variable hash : list byte -> Z.

Definition src_bytes (s : source_info) : list byte := firstn (size s) (buf s).

(** Offsets of the consecutive blocks of a source of [n] bytes, including
    a final short block. *)
Definition block_offsets (n : nat) : list nat :=
  map (fun k => k * BLOCK)%nat (seq 0 ((n + BLOCK - 1) / BLOCK)).

Definition block_at (s : source_info) (o : nat) : list byte :=
  firstn BLOCK (skipn o (src_bytes s)).

Definition source_entries (s : source_info) : list (Z * nat) :=
  map (fun o => (hash (block_at s o), agg_offset s + o)%nat) (block_offsets (size s)).

(** Modelled from the spec: the index construction of [create_delta_index]
    (section 4.1): the entries of [old] come first and keep their offsets,
    the blocks of [src] follow with offsets counted from [agg_offset src]. *)
Definition build_index (src : source_info) (old : option delta_index) : delta_index :=
  match old with
  | None => {| entries := source_entries src; sources := [src] |}
  | Some o => {| entries := entries o ++ source_entries src;
                 sources := sources o ++ [src] |}
  end.

(** Modelled from the spec: [create_delta_index] returns [NULL] ([None])
    only when the table memory cannot be obtained; [alloc_ok] is the outcome
    of that allocation. *)
Definition create_delta_index (alloc_ok : bool) (src : source_info)
    (old : option delta_index) : option delta_index :=
  if alloc_ok then Some (build_index src old) else None.

(** The offsets registered under hash [h], in registration order. *)
Definition lookup (h : Z) (idx : delta_index) : list nat :=
  map snd (filter (fun e => fst e =? h) (entries idx)).

End WithHash.

(** The byte at position [p] of the aggregate source. *)
Fixpoint agg_byte (srcs : list source_info) (p : nat) : option byte :=
  match srcs with
  | [] => None
  | s :: r =>
      if (agg_offset s <=? p)%nat && (p <? agg_offset s + size s)%nat
      then nth_error (buf s) (p - agg_offset s)
      else agg_byte r p
  end.

(** Length of the aggregate source. *)
Definition agg_size (idx : delta_index) : nat :=
  fold_right (fun s m => Nat.max (agg_offset s + size s) m) 0%nat (sources idx).

End Index.

(** ** The delta instruction stream (section 6) *)
Module Stream.
Import CInt Varint.

Inductive op : Type :=
  | Copy (off len : nat)
  | Insert (data : list byte).

(** Number of target bytes an operation produces. *)
Definition op_len (o : op) : nat :=
  match o with Copy _ len => len | Insert d => length d end.

Definition MAX_INSERT : nat := 127.
Definition MAX_COPY : nat := N.to_nat 65536.

(** Byte [k] (little endian) of [v]. *)
Definition field_byte (v : Z) (k : nat) : Z := Z.land (Z.shiftr v (8 * Z.of_nat k)) 255.

(** Bytes [k .. k+n-1] of [v]: the presence bitmask (byte [k+i] is flagged
    by bit [j+i]) and the non-zero bytes, which alone are written. *)
Fixpoint encode_field (v : Z) (k n j : nat) : Z * list byte :=
  match n with
  | O => (0, [])
  | S n' =>
      let b := field_byte v k in
      let '(m, bs) := encode_field v (S k) n' (S j) in
      if b =? 0 then (m, bs) else (Z.setbit m (Z.of_nat j), byte_of b :: bs)
  end.

(** Modelled from the spec: the encoding of one operation (section 6):
    bits 0-3 of a copy opcode flag the offset bytes, bits 4-6 the length
    bytes. *)
Definition encode_op (o : op) : list byte :=
  match o with
  | Insert d => byte_of (Z.of_nat (length d)) :: d
  | Copy off len =>
      let '(mo, bo) := encode_field (Z.of_nat off) 0 4 0 in
      let '(ml, bl) := encode_field (Z.of_nat len) 0 3 4 in
      byte_of (Z.lor 128 (Z.lor mo ml)) :: bo ++ bl
  end.

(** Reading the fields back: when bit [j] of the opcode is set, the next
    byte [b] contributes [b << 8k]; an absent byte contributes 0. *)
Fixpoint decode_field (cmd : Z) (j k n : nat) (bs : list byte) (acc : Z)
  : option (Z * list byte) :=
  match n with
  | O => Some (acc, bs)
  | S n' =>
      if Z.testbit cmd (Z.of_nat j) then
        match bs with
        | [] => None
        | b :: bs' =>
            decode_field cmd (S j) (S k) n' bs' (Z.lor acc (Z.shiftl (uchar b) (8 * Z.of_nat k)))
        end
      else decode_field cmd (S j) (S k) n' bs acc
  end.

(** Modelled from the spec: the operation reader of the external apply
    routine (section 6). *)
Fixpoint decode_ops (fuel : nat) (bs : list byte) : option (list op) :=
  match bs with
  | [] => Some []
  | c :: rest =>
      match fuel with
      | O => None
      | S f =>
          let cmd := uchar c in
          if Z.land cmd 128 =? 0 then
            if cmd =? 0 then None
            else
              let n := Z.to_nat cmd in
              if (n <=? length rest)%nat
              then option_map (cons (Insert (firstn n rest))) (decode_ops f (skipn n rest))
              else None
          else
            match decode_field cmd 0 0 4 rest 0 with
            | None => None
            | Some (off, rest1) =>
                match decode_field cmd 4 0 3 rest1 0 with
                | None => None
                | Some (len, rest2) =>
                    let len' := if len =? 0 then 65536 else len in
                    option_map (cons (Copy (Z.to_nat off) (Z.to_nat len'))) (decode_ops f rest2)
                end
            end
      end
  end.

(** Modelled from the spec: the varint reader of the apply side (section
    4.3): [value |= (byte & 0x7F) << (7 * i)], stopping with an error when
    the buffer ends before a terminating byte. *)
Fixpoint decode_varint (bs : list byte) (shift acc : Z) : option (Z * list byte) :=
  match bs with
  | [] => None
  | b :: r =>
      let acc' := Z.lor acc (Z.shiftl (Z.land (uchar b) 127) shift) in
      if Z.land (uchar b) 128 =? 0 then Some (acc', r) else decode_varint r (shift + 7) acc'
  end.

(** The header (source size, target size) and the operations of a stream. *)
Definition parse_delta (bs : list byte) : option (Z * Z * list op) :=
  match decode_varint bs 0 0 with
  | None => None
  | Some (src_sz, r1) =>
      match decode_varint r1 0 0 with
      | None => None
      | Some (tgt_sz, r2) =>
          match decode_ops (length r2) r2 with
          | None => None
          | Some ops => Some (src_sz, tgt_sz, ops)
          end
      end
  end.

Definition op_effect (src : list byte) (o : op) : option (list byte) :=
  match o with
  | Insert d => Some d
  | Copy off len =>
      if (off + len <=? length src)%nat then Some (firstn len (skipn off src)) else None
  end.

(** The effects of the operations, concatenated in order. *)
Fixpoint run_ops (src : list byte) (ops : list op) : option (list byte) :=
  match ops with
  | [] => Some []
  | o :: r =>
      match op_effect src o, run_ops src r with
      | Some a, Some b => Some (a ++ b)
      | _, _ => None
      end
  end.

(** Modelled from the spec: the external apply routine. *)
Definition apply_delta (src delta : list byte) : option (list byte) :=
  match parse_delta delta with
  | None => None
  | Some (src_sz, tgt_sz, ops) =>
      if negb (src_sz =? Z.of_nat (length src)) then None
      else match run_ops src ops with
           | None => None
           | Some out => if Z.of_nat (length out) =? tgt_sz then Some out else None
           end
  end.

End Stream.

(** ** The delta builder (declared in delta.h, lines 43-56)

    [create_delta] has no body in the repository's sources: the builder
    below is modelled from the specification (section 4.2). *)
Module Builder.
Import Varint Index Stream.

(** Matches shorter than this are emitted as literals. *)
Definition MIN_MATCH : nat := 4.

(** A copy offset has at most four bytes (section 6): only the first [2^32]
    bytes of the aggregate source can be copied from. *)
Definition COPY_LIMIT : N := 4294967296.

Definition src_byte (idx : delta_index) (p : nat) : option byte :=
  if (N.of_nat p <? COPY_LIMIT)%N then agg_byte (sources idx) p else None.

(** Forward extension from source [off] and target [t]. *)
Fixpoint match_fwd (fuel : nat) (idx : delta_index) (T : list byte) (off t : nat) : nat :=
  match fuel with
  | O => O
  | S f =>
      match src_byte idx off, nth_error T t with
      | Some a, Some b => if Byte.eqb a b then S (match_fwd f idx T (S off) (S t)) else O
      | _, _ => O
      end
  end.

(** Backward extension before source [off] and target [t], at most [fuel]
    bytes (the pending literal run). *)
Fixpoint match_bwd (fuel : nat) (idx : delta_index) (T : list byte) (off t : nat) : nat :=
  match fuel, off, t with
  | S f, S off', S t' =>
      match src_byte idx off', nth_error T t' with
      | Some a, Some b => if Byte.eqb a b then S (match_bwd f idx T off' t') else O
      | _, _ => O
      end
  | _, _, _ => O
  end.

(** A candidate offset, verified on [BLOCK] bytes and extended both ways:
    (source start, target start, length). *)
Definition candidate (idx : delta_index) (T : list byte) (t lit off : nat)
  : option (nat * nat * nat) :=
  let fwd := match_fwd (length T - t) idx T off t in
  if (fwd <? BLOCK)%nat then None
  else let bwd := match_bwd (t - lit) idx T off t in
       Some (off - bwd, t - bwd, bwd + fwd)%nat.

(** The longest candidate; ties keep the earliest registered one. *)
Fixpoint best_match (idx : delta_index) (T : list byte) (t lit : nat)
    (cands : list nat) (best : option (nat * nat * nat)) : option (nat * nat * nat) :=
  match cands with
  | [] => best
  | off :: r =>
      let best' :=
        match candidate idx T t lit off, best with
        | Some c, None => Some c
        | Some (mo, ms, ml), Some (bo, bs, bl) =>
            if (bl <? ml)%nat then Some (mo, ms, ml) else Some (bo, bs, bl)
        | None, _ => best
        end in
      best_match idx T t lit r best'
  end.

(** Literal runs, in Insert operations of at most 127 bytes. *)
Fixpoint insert_ops_fuel (fuel : nat) (l : list byte) : list op :=
  match fuel with
  | O => []
  | S f =>
      match l with
      | [] => []
      | _ => Insert (firstn MAX_INSERT l) :: insert_ops_fuel f (skipn MAX_INSERT l)
      end
  end.

Definition insert_ops (l : list byte) : list op := insert_ops_fuel (length l) l.

(** A matched span, in Copy operations of at most 0x10000 bytes. *)
Fixpoint copy_ops_fuel (fuel off len : nat) : list op :=
  match fuel with
  | O => []
  | S f =>
      if (len =? 0)%nat then []
      else let c := Nat.min len MAX_COPY in Copy off c :: copy_ops_fuel f (off + c) (len - c)
  end.

Definition copy_ops (off len : nat) : list op := copy_ops_fuel len off len.

(** The pending literal run [T[lit .. t)]. *)
Definition flush_literal (T : list byte) (lit t : nat) : list op :=
  insert_ops (firstn (t - lit) (skipn lit T)).

Record dstate : Type := {
  ds_t : nat;            (* cursor into the target *)
  ds_lit : nat;          (* start of the pending literal run *)
  ds_ops : list op;      (* operations emitted so far *)
  ds_outsize : nat       (* bytes of the stream emitted so far *)
}.

Definition with_cursor (st : dstate) (t lit : nat) : dstate :=
  {| ds_t := t; ds_lit := lit; ds_ops := ds_ops st; ds_outsize := ds_outsize st |}.

(** [max_delta_size] is a cap when non-zero. *)
Definition exceeds (max_size n : nat) : bool := negb (max_size =? 0)%nat && (max_size <? n)%nat.

(** Append one operation, aborting when the stream exceeds the cap. *)
Definition emit (max_size : nat) (o : op) (st : dstate) : option dstate :=
  let n := (ds_outsize st + length (encode_op o))%nat in
  if exceeds max_size n then None
  else Some {| ds_t := ds_t st; ds_lit := ds_lit st; ds_ops := ds_ops st ++ [o];
               ds_outsize := n |}.

Fixpoint emit_all (max_size : nat) (os : list op) (st : dstate) : option dstate :=
  match os with
  | [] => Some st
  | o :: r => match emit max_size o st with None => None | Some st' => emit_all max_size r st' end
  end.

Section WithHash.
Variable hash : list byte -> Z.

Definition find_match (idx : delta_index) (T : list byte) (t lit : nat) : option (nat * nat * nat) :=
  best_match idx T t lit (lookup (hash (firstn BLOCK (skipn t T))) idx) None.

(** The greedy pass; each round advances the cursor, so [S (length T)]
    rounds reach the end of the target. *)
Fixpoint delta_loop (max_size fuel : nat) (idx : delta_index) (T : list byte) (st : dstate)
  : option dstate :=
  match fuel with
  | O => emit_all max_size (flush_literal T (ds_lit st) (length T)) st
  | S f =>
      let t := ds_t st in
      let lit := ds_lit st in
      if (t + BLOCK <=? length T)%nat then
        match find_match idx T t lit with
        | Some (moff, mstart, mlen) =>
            if (MIN_MATCH <=? mlen)%nat then
              match emit_all max_size (flush_literal T lit mstart ++ copy_ops moff mlen) st with
              | None => None
              | Some st' => delta_loop max_size f idx T (with_cursor st' (mstart + mlen) (mstart + mlen))
              end
            else delta_loop max_size f idx T (with_cursor st (S t) lit)
        | None => delta_loop max_size f idx T (with_cursor st (S t) lit)
        end
      else emit_all max_size (flush_literal T lit (length T)) st
  end.

Definition delta_header (idx : delta_index) (T : list byte) : list byte :=
  encode_varint (Z.of_nat (agg_size idx)) ++ encode_varint (Z.of_nat (length T)).

(** Modelled from the spec: [create_delta] (section 4.2); [None] is the
    [NULL] of a size cutoff, the result is the stream and its length is
    [*delta_size]. *)
Definition create_delta (idx : delta_index) (T : list byte) (max_delta_size : nat)
  : option (list byte) :=
  let header := delta_header idx T in
  if exceeds max_delta_size (length header) then None
  else match delta_loop max_delta_size (S (length T)) idx T
               {| ds_t := 0; ds_lit := 0; ds_ops := []; ds_outsize := length header |} with
       | None => None
       | Some st => Some (header ++ concat (map encode_op (ds_ops st)))
       end.

End WithHash.

End Builder.

(** ** Definitions used by the proofs *)
Module Support.
Import CInt Varint Index Stream Builder.

(** The value the present bytes [k .. k+n-1] of [v] stand for. *)
Fixpoint field_sum (v : Z) (k n : nat) : Z :=
  match n with
  | O => 0
  | S n' => Z.lor (Z.shiftl (field_byte v k) (8 * Z.of_nat k)) (field_sum v (S k) n')
  end.

(** Operations the format can carry (section 6). *)
Definition valid_op (o : op) : Prop :=
  match o with
  | Insert d => (1 <= length d <= 127)%nat
  | Copy off len => Z.of_nat off < 2 ^ 32 /\ (1 <= len)%nat /\ Z.of_nat len <= 65536
  end.

Definition stream_len (os : list op) : nat := length (concat (map encode_op os)).

(** The state after appending [os] without a cap. *)
Definition append_ops (st : dstate) (os : list op) : dstate :=
  {| ds_t := ds_t st; ds_lit := ds_lit st; ds_ops := ds_ops st ++ os;
     ds_outsize := ds_outsize st + stream_len os |}.

(** The emitted size is the length of the header plus the encoded
    operations. *)
Definition size_inv (base : nat) (st : dstate) : Prop :=
  ds_outsize st = (base + stream_len (ds_ops st))%nat.

(** Bytes [T[b ..]] equal the aggregate source bytes [a ..] over [c]
    positions. *)
Definition span (idx : delta_index) (T : list byte) (a b c : nat) : Prop :=
  forall i, (i < c)%nat -> exists x, src_byte idx (a + i) = Some x /\ nth_error T (b + i) = Some x.

(** The invariant of the greedy pass: the operations emitted so far
    rebuild the target up to the pending literal run. *)
Definition loop_inv (S T : list byte) (st : dstate) : Prop :=
  (ds_lit st <= ds_t st)%nat /\ run_ops S (ds_ops st) = Some (firstn (ds_lit st) T)
  /\ Forall valid_op (ds_ops st).

(** The bytes a header read consumed, read group by group: byte [k] adds
    its low seven bits times [2^(7k)]; the result is undefined ([None]) as
    soon as a group shifted by its count is not an [int] value (a count of
    at least 32, or a product above [INT_MAX]). *)
Fixpoint group_sum (bs : list byte) (k : Z) : option Z :=
  match bs with
  | [] => Some 0
  | b :: r =>
      if (k <? INT_WIDTH) && (uchar b mod 128 * 2 ^ k <=? INT_MAX)
      then option_map (Z.add (uchar b mod 128 * 2 ^ k)) (group_sum r (k + 7))
      else None
  end.

(** A sample source, and a target holding it between two literal bytes
    on each side; the sample hash puts every block in one bucket. *)
Definition example_source : list byte :=
  [x61; x62; x63; x64; x65; x66; x67; x68; x69; x6a; x6b; x6c; x6d; x6e; x6f; x70].

Definition example_target : list byte := [x7a; x7a] ++ example_source ++ [x7a; x7a].

Definition example_hash (b : list byte) : Z := 0.

(** The descriptor of a single source buffer. *)
Definition mk_source (S : list byte) : source_info :=
  {| buf := S; size := length S; agg_offset := 0 |}.

End Support.

(** ** Lemmas on the C integer operations and on bytes *)
Module HdrFacts.
Import CInt Hdr Varint.

Lemma uchar_bound (b : byte) : 0 <= uchar b < 256.
Proof.
  unfold uchar. pose proof (Byte.to_N_bounded b). lia.
Qed.

Lemma uchar_land_lnot128 (b : byte) : Z.land (uchar b) (Z.lnot 128) = uchar b mod 128.
Proof. destruct b; reflexivity. Qed.

Lemma uchar_land_128 (b : byte) : (Z.land (uchar b) 128 =? 0) = (uchar b <? 128).
Proof. destruct b; reflexivity. Qed.

Lemma uchar_byte_of (z : Z) : uchar (byte_of z) = z mod 256.
Proof.
  assert (Hm : 0 <= z mod 256 < 256) by (apply Z.mod_pos_bound; lia).
  unfold byte_of. destruct (Byte.of_N (Z.to_N (z mod 256))) eqn:E.
  - apply Byte.to_of_N in E. unfold uchar. rewrite E. apply Z2N.id. lia.
  - exfalso. apply Byte.of_N_None_iff in E. apply N2Z.inj_lt in E.
    rewrite Z2N.id in E by lia. simpl in E. lia.
Qed.

(** Or-ing a value below [2^i] with a multiple of [2^i] adds them. *)
Lemma lor_low_high (a b i : Z) :
  0 <= i -> 0 <= a < 2 ^ i -> Z.lor a (b * 2 ^ i) = a + b * 2 ^ i.
Proof.
  intros Hi Ha.
  assert (Hl : Z.land a (b * 2 ^ i) = 0).
  { apply Z.bits_inj_0. intro m. rewrite Z.land_spec.
    rewrite <- Z.shiftl_mul_pow2 by lia.
    destruct (Z_lt_le_dec m i) as [Hm | Hm].
    - rewrite Z.shiftl_spec_low by lia. apply andb_false_r.
    - rewrite <- (Z.mod_small a (2 ^ i)) by lia.
      rewrite Z.mod_pow2_bits_high by lia. reflexivity. }
  rewrite <- Z.lxor_lor by exact Hl. rewrite Z.add_nocarry_lxor by exact Hl.
  reflexivity.
Qed.

Lemma int_shl_small (a k : Z) :
  0 <= k < INT_WIDTH -> 0 <= a -> a * 2 ^ k <= INT_MAX -> int_shl a (Some k) = Some (a * 2 ^ k).
Proof.
  intros Hk Ha Hv. unfold int_shl.
  replace ((k <? 0) || (INT_WIDTH <=? k) || (a <? 0)) with false
    by (symmetry; repeat rewrite orb_false_iff; repeat split; apply Z.ltb_ge || apply Z.leb_gt; lia).
  replace (a * 2 ^ k <=? INT_MAX) with true by (symmetry; apply Z.leb_le; lia).
  reflexivity.
Qed.

Lemma int_add_small (k b : Z) :
  INT_MIN <= k + b <= INT_MAX -> int_add (Some k) b = Some (k + b).
Proof.
  intros H. unfold int_add.
  replace ((INT_MIN <=? k + b) && (k + b <=? INT_MAX)) with true
    by (symmetry; apply andb_true_iff; split; apply Z.leb_le; lia).
  reflexivity.
Qed.

Lemma ulong_of_int_small (v : Z) : 0 <= v <= INT_MAX -> ulong_of_int v = v.
Proof.
  intros H. unfold ulong_of_int, ULONG_MOD, INT_MAX in *. apply Z.mod_small. lia.
Qed.

Lemma skipn_length_app {A} (pre l : list A) : skipn (length pre) (pre ++ l) = l.
Proof. induction pre; simpl; auto. Qed.

End HdrFacts.

(** ** The loop of [get_delta_hdr_size] *)
Module HdrLoop.
Import CInt Hdr Varint HdrFacts.

(** One unfolding of the loop body. *)
Lemma hdr_loop_cons b rest data top size i :
  hdr_loop (b :: rest) data top size i =
  let size' := ulong_or_int size (int_shl (uchar b mod 128) i) in
  if negb (uchar b <? 128) && (S data <? top)%nat
  then hdr_loop rest (S data) top size' (int_add i 7)
  else Returned size' (S data).
Proof.
  simpl. rewrite uchar_land_lnot128, uchar_land_128. reflexivity.
Qed.

(** The loop only looks at the bytes in [data, top) (and at [data] itself). *)
Lemma hdr_loop_frame l1 l2 data top size i :
  (data < top)%nat ->
  (forall j, (j < top - data)%nat -> nth_error l1 j = nth_error l2 j) ->
  hdr_loop l1 data top size i = hdr_loop l2 data top size i.
Proof.
  revert l2 data size i.
  induction l1 as [| b1 l1 IH]; intros [| b2 l2] data size i Hlt Hagree.
  - reflexivity.
  - specialize (Hagree 0%nat ltac:(lia)). discriminate.
  - specialize (Hagree 0%nat ltac:(lia)). discriminate.
  - pose proof (Hagree 0%nat ltac:(lia)) as H0. simpl in H0. injection H0 as ->.
    rewrite !hdr_loop_cons. cbv zeta.
    destruct (negb (uchar b2 <? 128) && (S data <? top)%nat) eqn:Hc; [| reflexivity].
    apply andb_true_iff in Hc as [_ Hc]. apply Nat.ltb_lt in Hc.
    apply IH; [exact Hc |].
    intros j Hj. apply (Hagree (S j)). lia.
Qed.

(** Every run that returns consumes at least one byte, and never runs
    past [top] when it starts before [top]. *)
Lemma hdr_loop_cursor l data top size i size' c :
  hdr_loop l data top size i = Returned size' c ->
  (data < c)%nat /\ ((data < top)%nat -> (c <= top)%nat).
Proof.
  revert data size i.
  induction l as [| b l IH]; intros data size i H; [discriminate |].
  rewrite hdr_loop_cons in H. cbv zeta in H.
  destruct (negb (uchar b <? 128) && (S data <? top)%nat) eqn:Hc.
  - apply andb_true_iff in Hc as [_ Hc]. apply Nat.ltb_lt in Hc.
    apply IH in H as [H1 H2]. split; [lia | intros _; apply H2; exact Hc].
  - injection H as _ <-. split; lia.
Qed.

(** A run starting before [top] with the bytes up to [top] readable
    always returns. *)
Lemma hdr_loop_returns l data top size i :
  (data < top)%nat -> (top - data <= length l)%nat ->
  exists size' c, hdr_loop l data top size i = Returned size' c.
Proof.
  revert data size i.
  induction l as [| b l IH]; intros data size i Hlt Hlen; [simpl in Hlen; lia |].
  rewrite hdr_loop_cons. cbv zeta.
  destruct (negb (uchar b <? 128) && (S data <? top)%nat) eqn:Hc.
  - apply andb_true_iff in Hc as [_ Hc]. apply Nat.ltb_lt in Hc.
    apply IH; [exact Hc | simpl in Hlen; lia].
  - eexists _, _. reflexivity.
Qed.

(** When all the bytes in [data, top) carry the continuation bit, the loop
    stops at [top]. *)
Lemma hdr_loop_all_continued l data top size i :
  (data < top)%nat ->
  (forall j, (j < top - data)%nat ->
     exists b, nth_error l j = Some b /\ Z.land (uchar b) 128 <> 0) ->
  exists size', hdr_loop l data top size i = Returned size' top.
Proof.
  revert data size i.
  induction l as [| b l IH]; intros data size i Hlt Hall.
  - destruct (Hall 0%nat ltac:(lia)) as [b [Hb _]]. discriminate.
  - destruct (Hall 0%nat ltac:(lia)) as [b' [Hb Hbit]]. simpl in Hb.
    injection Hb as <-.
    assert (Hhi : (uchar b <? 128) = false).
    { rewrite <- uchar_land_128. apply Z.eqb_neq. exact Hbit. }
    rewrite hdr_loop_cons. cbv zeta. rewrite Hhi. simpl negb.
    destruct (S data <? top)%nat eqn:Hc; cbn [andb].
    + apply Nat.ltb_lt in Hc. apply IH; [exact Hc |].
      intros j Hj. apply (Hall (S j)). lia.
    + apply Nat.ltb_ge in Hc. exists (ulong_or_int size (int_shl (uchar b mod 128) i)).
      f_equal. lia.
Qed.

(** The accumulated value stays defined while at most four bytes are
    consumed from shift count 0. *)
Lemma hdr_loop_defined l data top acc k size' c :
  0 <= k -> 0 <= acc < 2 ^ k ->
  hdr_loop l data top (Some acc) (Some k) = Returned size' c ->
  k + 7 * Z.of_nat (c - data) <= 28 ->
  exists v, size' = Some v.
Proof.
  revert data acc k.
  induction l as [| b l IH]; intros data acc k Hk Hacc H Hbound; [discriminate |].
  pose proof (hdr_loop_cursor _ _ _ _ _ _ _ H) as [Hc _].
  pose proof (uchar_bound b) as Hb.
  assert (Hm : 0 <= uchar b mod 128 < 128) by (apply Z.mod_pos_bound; lia).
  assert (Hk21 : k <= 21) by lia.
  assert (Hp : 2 ^ k <= 2 ^ 21) by (apply Z.pow_le_mono_r; lia).
  assert (Hpk : 0 < 2 ^ k) by (apply Z.pow_pos_nonneg; lia).
  rewrite hdr_loop_cons in H. cbv zeta in H.
  rewrite int_shl_small in H
    by (unfold INT_WIDTH, INT_MAX; try lia; change (2 ^ 31 - 1) with (2147483647);
        change (2 ^ 21) with 2097152 in Hp; nia).
  unfold ulong_or_int in H.
  rewrite ulong_of_int_small in H
    by (unfold INT_MAX; change (2 ^ 31 - 1) with 2147483647;
        change (2 ^ 21) with 2097152 in Hp; nia).
  rewrite lor_low_high in H by lia.
  destruct (negb (uchar b <? 128) && (S data <? top)%nat) eqn:Hcont.
  - rewrite int_add_small in H by (unfold INT_MIN, INT_MAX; lia).
    pose proof (hdr_loop_cursor _ _ _ _ _ _ _ H) as [Hc' _].
    apply (IH (S data) _ (k + 7)) in H; [exact H | lia | | ].
    + rewrite Z.pow_add_r by lia. change (2 ^ 7) with 128. nia.
    + replace (c - data)%nat with (S (c - S data)) in Hbound by lia. lia.
  - injection H as <- _. eexists. reflexivity.
Qed.

End HdrLoop.

(** ** The C decoder on the varint encoding *)
Module HdrVarint.
Import CInt Hdr Varint HdrFacts HdrLoop.

(** Fuel [S f] encodes every value below [2^(7 (S f))]. *)
Lemma hdr_loop_varint f n post data top acc k :
  0 <= n < 2 ^ (7 * Z.of_nat (S f)) ->
  0 <= k < INT_WIDTH -> 0 <= acc < 2 ^ k -> acc + n * 2 ^ k <= INT_MAX ->
  (data + length (varint_fuel (S f) n) <= top)%nat ->
  hdr_loop (varint_fuel (S f) n ++ post) data top (Some acc) (Some k)
  = Returned (Some (acc + n * 2 ^ k)) (data + length (varint_fuel (S f) n)).
Proof.
  revert n data acc k.
  induction f as [| f IH]; intros n data acc k Hn Hk Hacc Hv Htop;
    assert (Hpk : 0 < 2 ^ k) by (apply Z.pow_pos_nonneg; lia).
  - cbn [varint_fuel] in *. replace (n <? 128) with true in * by (symmetry; apply Z.ltb_lt; simpl in Hn; lia).
    simpl app. rewrite hdr_loop_cons. cbv zeta.
    rewrite uchar_byte_of, Z.mod_small by (simpl in Hn; lia).
    rewrite Z.mod_small by (simpl in Hn; lia).
    replace (n <? 128) with true by (symmetry; apply Z.ltb_lt; simpl in Hn; lia).
    simpl negb. cbn [andb].
    rewrite int_shl_small by (unfold INT_MAX in *; nia).
    unfold ulong_or_int. rewrite ulong_of_int_small by (unfold INT_MAX in *; nia).
    rewrite lor_low_high by lia. simpl length. f_equal. lia.
  - change (varint_fuel (S (S f)) n) with
      (if n <? 128 then [byte_of n]
       else byte_of (Z.lor (n mod 128) 128) :: varint_fuel (S f) (n / 128)) in *.
    destruct (n <? 128) eqn:Hsmall.
    + try rewrite Hsmall in Htop. apply Z.ltb_lt in Hsmall.
      simpl app. rewrite hdr_loop_cons. cbv zeta.
      rewrite uchar_byte_of, Z.mod_small by lia.
      rewrite Z.mod_small by lia.
      replace (n <? 128) with true by (symmetry; apply Z.ltb_lt; lia).
      simpl negb. cbn [andb].
      rewrite int_shl_small by (unfold INT_MAX in *; nia).
      unfold ulong_or_int. rewrite ulong_of_int_small by (unfold INT_MAX in *; nia).
      rewrite lor_low_high by lia. simpl length. f_equal. lia.
    + try rewrite Hsmall in Htop. apply Z.ltb_ge in Hsmall.
      assert (Hlo : 0 <= n mod 128 < 128) by (apply Z.mod_pos_bound; lia).
      assert (Hdiv : n = 128 * (n / 128) + n mod 128) by (apply Z.div_mod; lia).
      assert (Hq : 1 <= n / 128) by (apply Z.div_le_lower_bound; lia).
      assert (Hbyte : uchar (byte_of (Z.lor (n mod 128) 128)) = n mod 128 + 128).
      { rewrite uchar_byte_of. change 128 with (1 * 2 ^ 7) at 2.
        rewrite lor_low_high by lia. apply Z.mod_small. lia. }
      cbn [app]. rewrite hdr_loop_cons. cbv zeta. rewrite Hbyte.
      replace ((n mod 128 + 128) mod 128) with (n mod 128)
        by (rewrite <- Z.add_mod_idemp_r by lia; rewrite Z.mod_same, Z.add_0_r by lia;
            rewrite Z.mod_mod by lia; reflexivity).
      replace (n mod 128 + 128 <? 128) with false by (symmetry; apply Z.ltb_ge; lia).
      cbn [length] in Htop.
      assert (Hlen1 : (1 <= length (varint_fuel (S f) (n / 128)))%nat).
      { cbn [varint_fuel]. destruct (n / 128 <? 128); simpl; lia. }
      replace (S data <? top)%nat with true by (symmetry; apply Nat.ltb_lt; lia).
      simpl negb. cbn [andb].
      rewrite int_shl_small by (unfold INT_MAX in *; nia).
      unfold ulong_or_int. rewrite ulong_of_int_small by (unfold INT_MAX in *; nia).
      rewrite lor_low_high by lia.
      rewrite int_add_small by (unfold INT_MIN, INT_MAX, INT_WIDTH in *; lia).
      assert (Hp7 : 2 ^ (k + 7) = 2 ^ k * 128) by (rewrite Z.pow_add_r by lia; reflexivity).
      assert (Hk7 : k + 7 < INT_WIDTH).
      { unfold INT_WIDTH, INT_MAX in *.
        destruct (Z_lt_le_dec (k + 7) 32) as [Hl | Hl]; [exact Hl |].
        assert (2 ^ 32 <= 2 ^ (k + 7)) by (apply Z.pow_le_mono_r; lia).
        change (2 ^ 32) with 4294967296 in *. change (2 ^ 31 - 1) with 2147483647 in *. nia. }
      rewrite IH.
      * f_equal; [f_equal; rewrite Hp7; nia | simpl length; lia].
      * split; [apply Z.div_pos; lia |].
        apply Z.div_lt_upper_bound; [lia |].
        replace (7 * Z.of_nat (S (S f))) with (7 * Z.of_nat (S f) + 7) in Hn by lia.
        rewrite Z.pow_add_r in Hn by lia. change (2 ^ 7) with 128 in Hn. lia.
      * lia.
      * rewrite Hp7. nia.
      * rewrite Hp7. nia.
      * lia.
Qed.

Lemma encode_varint_fuel (n : Z) :
  0 <= n -> n < 2 ^ (7 * Z.of_nat (S (Z.to_nat (Z.log2 n)))).
Proof.
  intros Hn. pose proof (Z.log2_nonneg n) as Hl.
  replace (Z.of_nat (S (Z.to_nat (Z.log2 n)))) with (Z.log2 n + 1) by lia.
  destruct (Z.eq_dec n 0) as [-> | Hnz]; [simpl; lia |].
  pose proof (Z.log2_spec n ltac:(lia)) as [_ Hup].
  eapply Z.lt_le_trans; [exact Hup |].
  apply Z.pow_le_mono_r; lia.
Qed.

(** [get_delta_hdr_size] reads back every value the encoding writes that
    fits the [int] shifts of the decoder. *)
Lemma get_delta_hdr_size_encode pre n post top :
  0 <= n <= INT_MAX ->
  (length pre + length (encode_varint n) <= top)%nat ->
  get_delta_hdr_size (pre ++ encode_varint n ++ post) (length pre) top
  = Returned (Some n) (length pre + length (encode_varint n)).
Proof.
  intros Hn Htop. unfold get_delta_hdr_size. rewrite skipn_length_app.
  unfold encode_varint in *.
  rewrite hdr_loop_varint.
  - rewrite Z.pow_0_r, Z.mul_1_r, Z.add_0_l. reflexivity.
  - split; [lia | apply encode_varint_fuel; lia].
  - unfold INT_WIDTH; lia.
  - simpl; lia.
  - simpl. lia.
  - exact Htop.
Qed.

End HdrVarint.

(** ** Facts on the index *)
Module IndexFacts.
Import Index.

Section WithHash.
Variable hash : list byte -> Z.

Lemma lookup_chained (s1 s2 : source_info) (h : Z) :
  lookup h (build_index hash s2 (Some (build_index hash s1 None)))
  = lookup h (build_index hash s1 None) ++ lookup h (build_index hash s2 None).
Proof.
  unfold lookup, build_index. cbn [entries]. rewrite filter_app, map_app. reflexivity.
Qed.

Lemma lookup_standalone_iff (s : source_info) (h : Z) (p : nat) :
  In p (lookup h (build_index hash s None)) <->
  exists o, In o (block_offsets (size s)) /\ hash (block_at s o) = h /\ p = (agg_offset s + o)%nat.
Proof.
  unfold lookup, build_index, source_entries. cbn [entries]. split.
  - intros Hin. apply in_map_iff in Hin as [[h' p'] [Hp Hin]]. cbn in Hp. subst p'.
    apply filter_In in Hin as [Hin Heq]. cbn in Heq. apply Z.eqb_eq in Heq. subst h'.
    apply in_map_iff in Hin as [o [Ho Hin]]. injection Ho as Hh Hp.
    exists o. auto.
  - intros [o [Hin [Hh Hp]]]. apply in_map_iff.
    exists (hash (block_at s o), (agg_offset s + o)%nat). split; [cbn; auto |].
    apply filter_In. split.
    + apply in_map_iff. exists o. auto.
    + cbn. apply Z.eqb_eq. exact Hh.
Qed.

Lemma lookup_block (s : source_info) (o : nat) :
  In o (block_offsets (size s)) ->
  In (agg_offset s + o)%nat (lookup (hash (block_at s o)) (build_index hash s None)).
Proof.
  intros Hin. apply lookup_standalone_iff. exists o. auto.
Qed.

Lemma block_offsets_zero : block_offsets 0 = [].
Proof. reflexivity. Qed.

End WithHash.
End IndexFacts.

(** ** The size cutoff of the builder *)
Module BuilderSize.
Import Varint Index Stream Builder Support.

Lemma stream_len_cons o os : stream_len (o :: os) = (length (encode_op o) + stream_len os)%nat.
Proof. unfold stream_len. cbn. apply length_app. Qed.

Lemma exceeds_mono m n n' : (n <= n')%nat -> exceeds m n = true -> exceeds m n' = true.
Proof.
  unfold exceeds. intros Hle H. apply andb_true_iff in H as [H0 H1].
  apply andb_true_iff. split; [exact H0 |]. apply Nat.ltb_lt in H1. apply Nat.ltb_lt. lia.
Qed.

Lemma exceeds_0 n : exceeds 0 n = false.
Proof. reflexivity. Qed.

Lemma emit_all_unbounded os st : emit_all 0 os st = Some (append_ops st os).
Proof.
  revert st. induction os as [| o os IH]; intros st.
  - destruct st. unfold append_ops. cbn. rewrite app_nil_r, Nat.add_0_r. reflexivity.
  - cbn [emit_all]. unfold emit. rewrite exceeds_0. rewrite IH.
    unfold append_ops. cbn [ds_t ds_lit ds_ops ds_outsize].
    rewrite <- app_assoc, stream_len_cons. cbn [app]. f_equal. f_equal. lia.
Qed.

Lemma emit_all_bounded m os st :
  exceeds m (ds_outsize st) = false ->
  emit_all m os st =
  if exceeds m (ds_outsize st + stream_len os) then None else Some (append_ops st os).
Proof.
  revert st. induction os as [| o os IH]; intros st Hst.
  - cbn [emit_all]. unfold stream_len. cbn. rewrite Nat.add_0_r, Hst.
    destruct st. unfold append_ops. cbn. rewrite app_nil_r, Nat.add_0_r. reflexivity.
  - cbn [emit_all]. unfold emit. rewrite stream_len_cons.
    destruct (exceeds m (ds_outsize st + length (encode_op o))) eqn:He.
    + replace (exceeds m (ds_outsize st + (length (encode_op o) + stream_len os))) with true
        by (symmetry; eapply exceeds_mono; [| exact He]; lia).
      reflexivity.
    + rewrite IH by exact He. cbn [ds_outsize].
      rewrite Nat.add_assoc.
      destruct (exceeds m (ds_outsize st + length (encode_op o) + stream_len os)); [reflexivity |].
      unfold append_ops. cbn [ds_t ds_lit ds_ops ds_outsize].
      rewrite <- app_assoc, stream_len_cons. cbn [app]. f_equal. f_equal. lia.
Qed.

Section WithHash.
Variable hash : list byte -> Z.

Lemma delta_loop_unbounded_grows fuel idx T st r :
  delta_loop hash 0 fuel idx T st = Some r -> (ds_outsize st <= ds_outsize r)%nat.
Proof.
  revert st. induction fuel as [| f IH]; intros st H; cbn [delta_loop] in H.
  - rewrite emit_all_unbounded in H. injection H as <-. cbn. lia.
  - destruct (ds_t st + BLOCK <=? length T)%nat.
    + destruct (find_match hash idx T (ds_t st) (ds_lit st)) as [[[moff mstart] mlen] |].
      * destruct (MIN_MATCH <=? mlen)%nat.
        -- rewrite emit_all_unbounded in H. apply IH in H. cbn in H. lia.
        -- apply IH in H. exact H.
      * apply IH in H. exact H.
    + rewrite emit_all_unbounded in H. injection H as <-. cbn. lia.
Qed.

Lemma delta_loop_unbounded_some fuel idx T st :
  exists r, delta_loop hash 0 fuel idx T st = Some r.
Proof.
  revert st. induction fuel as [| f IH]; intros st; cbn [delta_loop].
  - rewrite emit_all_unbounded. eauto.
  - destruct (ds_t st + BLOCK <=? length T)%nat.
    + destruct (find_match hash idx T (ds_t st) (ds_lit st)) as [[[moff mstart] mlen] |].
      * destruct (MIN_MATCH <=? mlen)%nat.
        -- rewrite emit_all_unbounded. apply IH.
        -- apply IH.
      * apply IH.
    + rewrite emit_all_unbounded. eauto.
Qed.

(** With a cap, the pass gives the uncapped result when that fits, and
    aborts otherwise. *)
Lemma delta_loop_bounded m fuel idx T st :
  exceeds m (ds_outsize st) = false ->
  delta_loop hash m fuel idx T st =
  match delta_loop hash 0 fuel idx T st with
  | Some r => if exceeds m (ds_outsize r) then None else Some r
  | None => None
  end.
Proof.
  revert st. induction fuel as [| f IH]; intros st Hst; cbn [delta_loop].
  - rewrite emit_all_bounded by exact Hst. rewrite emit_all_unbounded. reflexivity.
  - destruct (ds_t st + BLOCK <=? length T)%nat.
    + destruct (find_match hash idx T (ds_t st) (ds_lit st)) as [[[moff mstart] mlen] |].
      * destruct (MIN_MATCH <=? mlen)%nat.
        -- rewrite emit_all_bounded by exact Hst. rewrite emit_all_unbounded.
           set (os := flush_literal T (ds_lit st) mstart ++ copy_ops moff mlen).
           set (st1 := with_cursor (append_ops st os) (mstart + mlen) (mstart + mlen)).
           destruct (exceeds m (ds_outsize st + stream_len os)) eqn:He.
           ++ destruct (delta_loop_unbounded_some f idx T st1) as [r Hr]. rewrite Hr.
              apply delta_loop_unbounded_grows in Hr. unfold st1 in Hr. cbn in Hr.
              rewrite (exceeds_mono m _ _ Hr He). reflexivity.
           ++ apply IH. exact He.
        -- apply IH. exact Hst.
      * apply IH. exact Hst.
    + rewrite emit_all_bounded by exact Hst. rewrite emit_all_unbounded. reflexivity.
Qed.

Lemma stream_len_app a b : stream_len (a ++ b) = (stream_len a + stream_len b)%nat.
Proof. unfold stream_len. rewrite map_app, concat_app, length_app. reflexivity. Qed.

Lemma size_inv_append base st os : size_inv base st -> size_inv base (append_ops st os).
Proof. unfold size_inv, append_ops. cbn [ds_ops ds_outsize]. rewrite stream_len_app. lia. Qed.

Lemma delta_loop_size_inv base fuel idx T st r :
  size_inv base st -> delta_loop hash 0 fuel idx T st = Some r -> size_inv base r.
Proof.
  revert st. induction fuel as [| f IH]; intros st Hinv H; cbn [delta_loop] in H.
  - rewrite emit_all_unbounded in H. injection H as <-. apply size_inv_append, Hinv.
  - destruct (ds_t st + BLOCK <=? length T)%nat.
    + destruct (find_match hash idx T (ds_t st) (ds_lit st)) as [[[moff mstart] mlen] |].
      * destruct (MIN_MATCH <=? mlen)%nat.
        -- rewrite emit_all_unbounded in H. apply IH in H; [exact H |].
           apply size_inv_append with (os := flush_literal T (ds_lit st) mstart ++ copy_ops moff mlen)
             in Hinv. exact Hinv.
        -- apply IH in H; [exact H | exact Hinv].
      * apply IH in H; [exact H | exact Hinv].
    + rewrite emit_all_unbounded in H. injection H as <-. apply size_inv_append, Hinv.
Qed.

End WithHash.
End BuilderSize.

(** ** Reading a stream back *)
Module StreamFacts.
Import CInt Varint Stream HdrFacts.

Lemma uchar_land_127 (b : byte) : Z.land (uchar b) 127 = uchar b mod 128.
Proof. destruct b; reflexivity. Qed.

Lemma uchar_land_128_testbit (b : byte) : (Z.land (uchar b) 128 =? 0) = negb (Z.testbit (uchar b) 7).
Proof. destruct b; reflexivity. Qed.

(** The varint reader of the apply side reads back the encoding. *)
Lemma decode_varint_fuel f n rest shift acc :
  0 <= n < 2 ^ (7 * Z.of_nat (S f)) -> 0 <= shift -> 0 <= acc < 2 ^ shift ->
  decode_varint (varint_fuel (S f) n ++ rest) shift acc = Some (acc + n * 2 ^ shift, rest).
Proof.
  revert n shift acc.
  induction f as [| f IH]; intros n shift acc Hn Hs Hacc;
    assert (Hps : 0 < 2 ^ shift) by (apply Z.pow_pos_nonneg; lia).
  - cbn [varint_fuel] in *.
    replace (n <? 128) with true by (symmetry; apply Z.ltb_lt; simpl in Hn; lia).
    cbn [app decode_varint]. rewrite uchar_land_127, uchar_land_128.
    rewrite uchar_byte_of, Z.mod_small by (simpl in Hn; lia).
    rewrite Z.mod_small by (simpl in Hn; lia).
    replace (n <? 128) with true by (symmetry; apply Z.ltb_lt; simpl in Hn; lia).
    rewrite Z.shiftl_mul_pow2 by lia. rewrite lor_low_high by lia. reflexivity.
  - change (varint_fuel (S (S f)) n) with
      (if n <? 128 then [byte_of n]
       else byte_of (Z.lor (n mod 128) 128) :: varint_fuel (S f) (n / 128)).
    destruct (n <? 128) eqn:Hsmall.
    + apply Z.ltb_lt in Hsmall.
      cbn [app decode_varint]. rewrite uchar_land_127, uchar_land_128.
      rewrite uchar_byte_of, Z.mod_small by lia. rewrite Z.mod_small by lia.
      replace (n <? 128) with true by (symmetry; apply Z.ltb_lt; lia).
      rewrite Z.shiftl_mul_pow2 by lia. rewrite lor_low_high by lia. reflexivity.
    + apply Z.ltb_ge in Hsmall.
      assert (Hlo : 0 <= n mod 128 < 128) by (apply Z.mod_pos_bound; lia).
      assert (Hdiv : n = 128 * (n / 128) + n mod 128) by (apply Z.div_mod; lia).
      assert (Hbyte : uchar (byte_of (Z.lor (n mod 128) 128)) = n mod 128 + 128).
      { rewrite uchar_byte_of. change 128 with (1 * 2 ^ 7) at 2.
        rewrite lor_low_high by lia. apply Z.mod_small. lia. }
      cbn [app decode_varint]. rewrite uchar_land_127, uchar_land_128, Hbyte.
      replace ((n mod 128 + 128) mod 128) with (n mod 128)
        by (rewrite <- Z.add_mod_idemp_r by lia; rewrite Z.mod_same, Z.add_0_r by lia;
            rewrite Z.mod_mod by lia; reflexivity).
      replace (n mod 128 + 128 <? 128) with false by (symmetry; apply Z.ltb_ge; lia).
      rewrite Z.shiftl_mul_pow2 by lia. rewrite lor_low_high by lia.
      assert (Hp7 : 2 ^ (shift + 7) = 2 ^ shift * 128) by (rewrite Z.pow_add_r by lia; reflexivity).
      rewrite IH.
      * f_equal. f_equal. rewrite Hp7. nia.
      * split; [apply Z.div_pos; lia |].
        apply Z.div_lt_upper_bound; [lia |].
        replace (7 * Z.of_nat (S (S f))) with (7 * Z.of_nat (S f) + 7) in Hn by lia.
        rewrite Z.pow_add_r in Hn by lia. change (2 ^ 7) with 128 in Hn. lia.
      * lia.
      * rewrite Hp7. nia.
Qed.

Lemma decode_encode_varint n rest :
  0 <= n -> decode_varint (encode_varint n ++ rest) 0 0 = Some (n, rest).
Proof.
  intros Hn. unfold encode_varint. rewrite decode_varint_fuel.
  - rewrite Z.pow_0_r, Z.mul_1_r, Z.add_0_l. reflexivity.
  - split; [lia | apply HdrVarint.encode_varint_fuel; lia].
  - lia.
  - simpl; lia.
Qed.

Lemma encode_varint_nonempty n : (1 <= length (encode_varint n))%nat.
Proof. unfold encode_varint. cbn [varint_fuel]. destruct (n <? 128); simpl; lia. Qed.

End StreamFacts.

(** ** Reading operations back *)
Module OpFacts.
Import CInt Varint Stream Support HdrFacts StreamFacts.

Lemma field_byte_mod (v : Z) (k : nat) : field_byte v k = Z.shiftr v (8 * Z.of_nat k) mod 2 ^ 8.
Proof. unfold field_byte. change 255 with (Z.ones 8). apply Z.land_ones. lia. Qed.

Lemma field_byte_bound (v : Z) (k : nat) : 0 <= field_byte v k < 256.
Proof. rewrite field_byte_mod. apply Z.mod_pos_bound. reflexivity. Qed.

Lemma testbit_field_byte (v : Z) (k : nat) (i : Z) :
  0 <= i ->
  Z.testbit (Z.shiftl (field_byte v k) (8 * Z.of_nat k)) i
  = (8 * Z.of_nat k <=? i) && (i <? 8 * Z.of_nat k + 8) && Z.testbit v i.
Proof.
  intros Hi. destruct (Z_lt_le_dec i (8 * Z.of_nat k)) as [Hlt | Hge].
  - rewrite Z.shiftl_spec_low by exact Hlt.
    replace (8 * Z.of_nat k <=? i) with false by (symmetry; apply Z.leb_gt; lia). reflexivity.
  - rewrite Z.shiftl_spec by exact Hi. rewrite field_byte_mod.
    replace (8 * Z.of_nat k <=? i) with true by (symmetry; apply Z.leb_le; lia).
    destruct (Z_lt_le_dec i (8 * Z.of_nat k + 8)) as [Hlt | Hge'].
    + rewrite Z.mod_pow2_bits_low by lia. rewrite Z.shiftr_spec by lia.
      replace (i - 8 * Z.of_nat k + 8 * Z.of_nat k) with i by lia.
      replace (i <? 8 * Z.of_nat k + 8) with true by (symmetry; apply Z.ltb_lt; lia).
      reflexivity.
    + rewrite Z.mod_pow2_bits_high by lia.
      replace (i <? 8 * Z.of_nat k + 8) with false by (symmetry; apply Z.ltb_ge; lia).
      reflexivity.
Qed.

Lemma testbit_field_sum (n : nat) (v : Z) (k : nat) (i : Z) :
  0 <= i ->
  Z.testbit (field_sum v k n) i
  = (8 * Z.of_nat k <=? i) && (i <? 8 * Z.of_nat (k + n)) && Z.testbit v i.
Proof.
  intros Hi. revert k. induction n as [| n IH]; intros k.
  - cbn [field_sum]. rewrite Z.testbit_0_l.
    rewrite Nat.add_0_r.
    destruct (Z.leb_spec (8 * Z.of_nat k) i); [| reflexivity].
    replace (i <? 8 * Z.of_nat k) with false by (symmetry; apply Z.ltb_ge; lia).
    reflexivity.
  - cbn [field_sum]. rewrite Z.lor_spec, testbit_field_byte by exact Hi. rewrite IH.
    destruct (Z.testbit v i); [| rewrite !andb_false_r; reflexivity].
    rewrite !andb_true_r.
    destruct (Z_lt_le_dec i (8 * Z.of_nat k)) as [H1 | H1].
    + replace (8 * Z.of_nat k <=? i) with false by (symmetry; apply Z.leb_gt; lia).
      replace (8 * Z.of_nat (S k) <=? i) with false by (symmetry; apply Z.leb_gt; lia).
      reflexivity.
    + replace (8 * Z.of_nat k <=? i) with true by (symmetry; apply Z.leb_le; lia).
      destruct (Z_lt_le_dec i (8 * Z.of_nat k + 8)) as [H2 | H2].
      * replace (i <? 8 * Z.of_nat k + 8) with true by (symmetry; apply Z.ltb_lt; lia).
        replace (i <? 8 * Z.of_nat (k + S n)) with true by (symmetry; apply Z.ltb_lt; lia).
        reflexivity.
      * replace (i <? 8 * Z.of_nat k + 8) with false by (symmetry; apply Z.ltb_ge; lia).
        replace (8 * Z.of_nat (S k) <=? i) with true by (symmetry; apply Z.leb_le; lia).
        replace (S k + n)%nat with (k + S n)%nat by lia. reflexivity.
Qed.

Lemma field_sum_full (v : Z) (n : nat) :
  0 <= v < 2 ^ (8 * Z.of_nat n) -> field_sum v 0 n = v.
Proof.
  intros Hv. apply Z.bits_inj'. intros i Hi.
  rewrite testbit_field_sum by exact Hi.
  replace (8 * Z.of_nat 0 <=? i) with true by (symmetry; apply Z.leb_le; lia).
  cbn [andb]. rewrite Nat.add_0_l.
  destruct (Z_lt_le_dec i (8 * Z.of_nat n)) as [H | H].
  - replace (i <? 8 * Z.of_nat n) with true by (symmetry; apply Z.ltb_lt; lia). reflexivity.
  - replace (i <? 8 * Z.of_nat n) with false by (symmetry; apply Z.ltb_ge; lia).
    rewrite <- (Z.mod_small v (2 ^ (8 * Z.of_nat n))) by lia.
    rewrite Z.mod_pow2_bits_high by lia. reflexivity.
Qed.

(** The presence bitmask flags exactly the non-zero bytes. *)
Lemma testbit_encode_field_mask (n : nat) (v : Z) (k j i : nat) :
  Z.testbit (fst (encode_field v k n j)) (Z.of_nat i)
  = (j <=? i)%nat && (i <? j + n)%nat && negb (field_byte v (k + (i - j)) =? 0).
Proof.
  revert k j. induction n as [| n IH]; intros k j.
  - cbn [encode_field fst]. rewrite Z.testbit_0_l.
    rewrite Nat.add_0_r.
    destruct (Nat.leb_spec j i); [| reflexivity].
    replace (i <? j)%nat with false by (symmetry; apply Nat.ltb_ge; lia).
    reflexivity.
  - cbn [encode_field]. specialize (IH (S k) (S j)).
    destruct (encode_field v (S k) n (S j)) as [m bs] eqn:E. cbn [fst] in IH.
    assert (Hcase : forall (c : bool),
      Z.testbit (if c then m else Z.setbit m (Z.of_nat j)) (Z.of_nat i)
      = (negb c && (j =? i)%nat) || Z.testbit m (Z.of_nat i)).
    { intros c. destruct c; [reflexivity |].
      rewrite Z.setbit_eqb by lia. cbn [negb andb].
      f_equal. destruct (Nat.eqb_spec j i); [subst; apply Z.eqb_refl | apply Z.eqb_neq; lia]. }
    transitivity (Z.testbit (if field_byte v k =? 0 then m else Z.setbit m (Z.of_nat j)) (Z.of_nat i)).
    { destruct (field_byte v k =? 0); reflexivity. }
    rewrite Hcase, IH.
    destruct (Nat.lt_trichotomy i j) as [Hlt | [Heq | Hgt]].
    + replace (j =? i)%nat with false by (symmetry; apply Nat.eqb_neq; lia).
      replace (S j <=? i)%nat with false by (symmetry; apply Nat.leb_gt; lia).
      replace (j <=? i)%nat with false by (symmetry; apply Nat.leb_gt; lia).
      rewrite andb_false_r. reflexivity.
    + subst i. rewrite Nat.eqb_refl, Nat.sub_diag, Nat.add_0_r.
      replace (S j <=? j)%nat with false by (symmetry; apply Nat.leb_gt; lia).
      replace (j <=? j)%nat with true by (symmetry; apply Nat.leb_le; lia).
      replace (j <? j + S n)%nat with true by (symmetry; apply Nat.ltb_lt; lia).
      rewrite orb_false_r, andb_true_r. reflexivity.
    + replace (j =? i)%nat with false by (symmetry; apply Nat.eqb_neq; lia).
      replace (S j <=? i)%nat with true by (symmetry; apply Nat.leb_le; lia).
      replace (j <=? i)%nat with true by (symmetry; apply Nat.leb_le; lia).
      replace (S k + (i - S j))%nat with (k + (i - j))%nat by lia.
      replace (i <? S j + n)%nat with (i <? j + S n)%nat
        by (f_equal; lia).
      rewrite andb_false_r. reflexivity.
Qed.

(** Reading the present bytes of a field back. *)
Lemma decode_encode_field (n : nat) (v cmd acc : Z) (k j : nat) (rest : list byte) :
  (forall i, (i < n)%nat -> Z.testbit cmd (Z.of_nat (j + i)) = negb (field_byte v (k + i) =? 0)) ->
  decode_field cmd j k n (snd (encode_field v k n j) ++ rest) acc
  = Some (Z.lor acc (field_sum v k n), rest).
Proof.
  revert k j acc. induction n as [| n IH]; intros k j acc Hmask.
  - cbn. rewrite Z.lor_0_r. reflexivity.
  - cbn [encode_field field_sum].
    pose proof (Hmask 0%nat ltac:(lia)) as H0. rewrite !Nat.add_0_r in H0.
    assert (Hm' : forall i, (i < n)%nat ->
      Z.testbit cmd (Z.of_nat (S j + i)) = negb (field_byte v (S k + i) =? 0)).
    { intros i Hi. replace (S j + i)%nat with (j + S i)%nat by lia.
      replace (S k + i)%nat with (k + S i)%nat by lia. apply Hmask. lia. }
    pose proof (IH (S k) (S j)) as IHk.
    destruct (encode_field v (S k) n (S j)) as [m bs] eqn:E. cbn [snd] in IHk.
    destruct (field_byte v k =? 0) eqn:Hz.
    + cbn [snd decode_field]. rewrite H0. cbn [negb].
      rewrite IHk by exact Hm'. apply Z.eqb_eq in Hz. rewrite Hz, Z.shiftl_0_l, Z.lor_0_l.
      reflexivity.
    + cbn [snd app decode_field]. rewrite H0. cbn [negb].
      rewrite IHk by exact Hm'.
      rewrite uchar_byte_of, Z.mod_small by apply field_byte_bound.
      rewrite Z.lor_assoc. reflexivity.
Qed.

Lemma uchar_byte_of_bits (c : Z) (i : Z) :
  0 <= i < 8 -> Z.testbit (uchar (byte_of c)) i = Z.testbit c i.
Proof.
  intros Hi. rewrite uchar_byte_of. change 256 with (2 ^ 8).
  apply Z.mod_pow2_bits_low. lia.
Qed.

Lemma firstn_length_app {A} (l r : list A) : firstn (length l) (l ++ r) = l.
Proof. induction l; simpl; f_equal; auto. Qed.

Lemma decode_insert (d : list byte) (f : nat) (bs : list byte) :
  (1 <= length d <= 127)%nat ->
  decode_ops (S f) (encode_op (Insert d) ++ bs) = option_map (cons (Insert d)) (decode_ops f bs).
Proof.
  intros Hd. cbn [encode_op app decode_ops].
  rewrite uchar_land_128, uchar_byte_of, Z.mod_small by lia.
  replace (Z.of_nat (length d) <? 128) with true by (symmetry; apply Z.ltb_lt; lia).
  replace (Z.of_nat (length d) =? 0) with false by (symmetry; apply Z.eqb_neq; lia).
  rewrite Nat2Z.id.
  replace (length d <=? length (d ++ bs))%nat with true
    by (symmetry; apply Nat.leb_le; rewrite length_app; lia).
  rewrite firstn_length_app, skipn_length_app. reflexivity.
Qed.

Lemma encode_field_nonneg (v : Z) (k n j : nat) : 0 <= fst (encode_field v k n j).
Proof.
  revert k j. induction n as [| n IH]; intros k j; [cbn; lia |].
  cbn [encode_field]. specialize (IH (S k) (S j)).
  destruct (encode_field v (S k) n (S j)) as [m bs]. cbn [fst] in IH.
  destruct (field_byte v k =? 0); cbn [fst]; [exact IH |].
  unfold Z.setbit. apply Z.lor_nonneg. split; [exact IH | apply Z.shiftl_nonneg; lia].
Qed.

Lemma decode_copy (off len f : nat) (bs : list byte) :
  Z.of_nat off < 2 ^ 32 -> (1 <= len)%nat -> Z.of_nat len <= 65536 ->
  decode_ops (S f) (encode_op (Copy off len) ++ bs)
  = option_map (cons (Copy off len)) (decode_ops f bs).
Proof.
  intros Hoff Hlen1 Hlen2. unfold encode_op.
  pose proof (testbit_encode_field_mask 4 (Z.of_nat off) 0 0) as Mo.
  pose proof (testbit_encode_field_mask 3 (Z.of_nat len) 0 4) as Ml.
  pose proof (fun cmd acc => decode_encode_field 4 (Z.of_nat off) cmd acc 0 0) as Do.
  pose proof (fun cmd acc => decode_encode_field 3 (Z.of_nat len) cmd acc 0 4) as Dl.
  destruct (encode_field (Z.of_nat off) 0 4 0) as [mo bo] eqn:Eo.
  destruct (encode_field (Z.of_nat len) 0 3 4) as [ml bl] eqn:El.
  cbn [fst snd] in Mo, Ml, Do, Dl.
  set (c := Z.lor 128 (Z.lor mo ml)).
  assert (Hbits : forall i : nat, (i < 7)%nat ->
            Z.testbit (uchar (byte_of c)) (Z.of_nat i) = Z.testbit mo (Z.of_nat i) || Z.testbit ml (Z.of_nat i)).
  { intros i Hi. rewrite uchar_byte_of_bits by lia. unfold c.
    rewrite !Z.lor_spec. change 128 with (2 ^ 7). rewrite Z.pow2_bits_eqb by lia.
    replace (7 =? Z.of_nat i) with false by (symmetry; apply Z.eqb_neq; lia). reflexivity. }
  cbn [app decode_ops]. rewrite uchar_land_128_testbit.
  rewrite uchar_byte_of_bits by lia.
  replace (Z.testbit c 7) with true
    by (unfold c; rewrite !Z.lor_spec; reflexivity).
  cbn [negb]. rewrite <- app_assoc.
  rewrite Do.
  2:{ intros i Hi. rewrite Nat.add_0_l. rewrite Hbits by lia. rewrite Mo, Ml.
      replace (0 <=? i)%nat with true by (symmetry; apply Nat.leb_le; lia).
      replace (i <? 0 + 4)%nat with true by (symmetry; apply Nat.ltb_lt; lia).
      replace (4 <=? i)%nat with false by (symmetry; apply Nat.leb_gt; lia).
      rewrite Nat.sub_0_r, orb_false_r. reflexivity. }
  rewrite Dl.
  2:{ intros i Hi. rewrite Nat.add_0_l. rewrite Hbits by lia. rewrite Mo, Ml.
      replace (0 <=? 4 + i)%nat with true by (symmetry; apply Nat.leb_le; lia).
      replace (4 + i <? 0 + 4)%nat with false by (symmetry; apply Nat.ltb_ge; lia).
      replace (4 <=? 4 + i)%nat with true by (symmetry; apply Nat.leb_le; lia).
      replace (4 + i <? 4 + 3)%nat with true by (symmetry; apply Nat.ltb_lt; lia).
      replace (4 + i - 4)%nat with i by lia. reflexivity. }
  rewrite !Z.lor_0_l.
  rewrite field_sum_full by (split; [lia | exact Hoff]).
  rewrite field_sum_full by (split; [lia | change (2 ^ (8 * Z.of_nat 3)) with 16777216; lia]).
  replace (Z.of_nat len =? 0) with false by (symmetry; apply Z.eqb_neq; lia).
  rewrite !Nat2Z.id. reflexivity.
Qed.

Lemma encode_op_nonempty (o : op) : (1 <= length (encode_op o))%nat.
Proof.
  destruct o as [off len | d]; unfold encode_op; [| cbn; lia].
  destruct (encode_field (Z.of_nat off) 0 4 0), (encode_field (Z.of_nat len) 0 3 4). cbn. lia.
Qed.

Lemma decode_encode_ops (ops : list op) (f : nat) :
  Forall valid_op ops -> (stream_len ops <= f)%nat ->
  decode_ops f (concat (map encode_op ops)) = Some ops.
Proof.
  revert f. induction ops as [| o ops IH]; intros f Hv Hf.
  - destruct f; reflexivity.
  - inversion Hv as [| ? ? Ho Hops]; subst.
    unfold stream_len in Hf. cbn [map concat] in Hf |- *. rewrite length_app in Hf.
    pose proof (encode_op_nonempty o).
    destruct f as [| f]; [lia |].
    assert (Hrest : decode_ops f (concat (map encode_op ops)) = Some ops)
      by (apply IH; [exact Hops | unfold stream_len; lia]).
    destruct o as [off len | d]; cbn [valid_op] in Ho.
    + rewrite decode_copy by tauto. rewrite Hrest. reflexivity.
    + rewrite decode_insert by exact Ho. rewrite Hrest. reflexivity.
Qed.

End OpFacts.

(** ** The builder reproduces its target *)
Module RoundTrip.
Import Varint Index Stream Builder Support.

Lemma firstn_split {A} (a b : nat) (l : list A) :
  firstn (a + b) l = firstn a l ++ firstn b (skipn a l).
Proof.
  revert l. induction a as [| a IH]; intros l; [reflexivity |].
  destruct l as [| x l]; [destruct b; reflexivity |]. cbn. f_equal. apply IH.
Qed.

Lemma skipn_nth_error {A} (l : list A) (a : nat) (x : A) :
  nth_error l a = Some x -> skipn a l = x :: skipn (S a) l.
Proof.
  revert a. induction l as [| y l IH]; intros a H; [destruct a; discriminate |].
  destruct a as [| a]; cbn in H |- *; [congruence | apply IH, H].
Qed.

Lemma run_ops_app src a b x y :
  run_ops src a = Some x -> run_ops src b = Some y -> run_ops src (a ++ b) = Some (x ++ y).
Proof.
  revert x. induction a as [| o a IH]; intros x Ha Hb.
  - injection Ha as <-. exact Hb.
  - cbn [run_ops app] in Ha |- *.
    destruct (op_effect src o) as [e |]; [| discriminate].
    destruct (run_ops src a) as [r |] eqn:Hr; [| discriminate].
    injection Ha as <-. rewrite (IH r eq_refl Hb). rewrite app_assoc. reflexivity.
Qed.

(** The output of the operations is as long as the sum of their lengths. *)
Lemma run_ops_length src ops out :
  run_ops src ops = Some out -> length out = list_sum (map op_len ops).
Proof.
  revert out. induction ops as [| o ops IH]; intros out H.
  - injection H as <-. reflexivity.
  - cbn [run_ops] in H. destruct (op_effect src o) as [e |] eqn:He; [| discriminate].
    destruct (run_ops src ops) as [r |] eqn:Hr; [| discriminate].
    injection H as <-. cbn [map list_sum fold_right]. rewrite length_app.
    change (fold_right Nat.add 0%nat (map op_len ops)) with (list_sum (map op_len ops)).
    rewrite <- (IH r eq_refl). f_equal.
    destruct o as [off len | d]; cbn [op_effect op_len] in He |- *.
    + destruct (off + len <=? length src)%nat eqn:Hl; [| discriminate].
      apply Nat.leb_le in Hl. injection He as <-.
      rewrite length_firstn, length_skipn. lia.
    + congruence.
Qed.

Lemma insert_ops_fuel_run src fuel l :
  (length l <= fuel)%nat ->
  run_ops src (insert_ops_fuel fuel l) = Some l /\ Forall valid_op (insert_ops_fuel fuel l).
Proof.
  revert l. induction fuel as [| f IH]; intros l Hl.
  - destruct l; [split; [reflexivity | constructor] | cbn in Hl; lia].
  - destruct l as [| x l']; [split; [reflexivity | constructor] |].
    cbn [insert_ops_fuel].
    destruct (IH (skipn MAX_INSERT (x :: l'))) as [Hr Hv].
    { rewrite length_skipn. unfold MAX_INSERT. cbn [length] in Hl |- *. lia. }
    split.
    + cbn [run_ops op_effect]. rewrite Hr. rewrite firstn_skipn. reflexivity.
    + constructor; [| exact Hv]. cbn [valid_op]. rewrite length_firstn.
      unfold MAX_INSERT. cbn [length]. lia.
Qed.

Lemma insert_ops_run src l :
  run_ops src (insert_ops l) = Some l /\ Forall valid_op (insert_ops l).
Proof. apply insert_ops_fuel_run. lia. Qed.

Lemma MAX_COPY_Z : Z.of_nat MAX_COPY = 65536%Z.
Proof. unfold MAX_COPY. rewrite N_nat_Z. reflexivity. Qed.

Lemma copy_ops_fuel_run src fuel off len :
  (len <= fuel)%nat -> (off + len <= length src)%nat -> (Z.of_nat (off + len) <= 2 ^ 32)%Z ->
  run_ops src (copy_ops_fuel fuel off len) = Some (firstn len (skipn off src))
  /\ Forall valid_op (copy_ops_fuel fuel off len).
Proof.
  pose proof MAX_COPY_Z as Hmc.
  revert off len. induction fuel as [| f IH]; intros off len Hf Hs Hz.
  - replace len with 0%nat by lia. split; [reflexivity | constructor].
  - cbn [copy_ops_fuel]. destruct (Nat.eqb_spec len 0) as [H0 | H0].
    + subst len. split; [reflexivity | constructor].
    + set (c := Nat.min len MAX_COPY).
      assert (Hc : (1 <= c <= len)%nat /\ (Z.of_nat c <= 65536)%Z) by (unfold c; lia).
      destruct (IH (off + c)%nat (len - c)%nat) as [Hr Hv]; [lia | lia | lia |].
      split.
      * cbn [run_ops op_effect].
        replace (off + c <=? length src)%nat with true by (symmetry; apply Nat.leb_le; lia).
        rewrite Hr.
        replace (skipn (off + c) src) with (skipn c (skipn off src))
          by (rewrite skipn_skipn; f_equal; lia).
        rewrite <- firstn_split.
        f_equal. f_equal. lia.
      * constructor; [| exact Hv]. cbn [valid_op]. lia.
Qed.

Lemma copy_ops_run src off len :
  (off + len <= length src)%nat -> (Z.of_nat (off + len) <= 2 ^ 32)%Z ->
  run_ops src (copy_ops off len) = Some (firstn len (skipn off src))
  /\ Forall valid_op (copy_ops off len).
Proof. intros. apply copy_ops_fuel_run; lia. Qed.

(** Two spans that agree byte by byte are equal. *)
Lemma firstn_skipn_agree {A} (l1 l2 : list A) (a b c : nat) :
  (forall i, (i < c)%nat -> exists x, nth_error l1 (a + i) = Some x /\ nth_error l2 (b + i) = Some x) ->
  firstn c (skipn a l1) = firstn c (skipn b l2).
Proof.
  revert a b. induction c as [| c IH]; intros a b H; [reflexivity |].
  destruct (H 0%nat ltac:(lia)) as [x [H1 H2]]. rewrite Nat.add_0_r in H1, H2.
  rewrite (skipn_nth_error _ _ _ H1), (skipn_nth_error _ _ _ H2). cbn [firstn]. f_equal.
  apply IH. intros i Hi. destruct (H (S i) ltac:(lia)) as [y [Hy1 Hy2]].
  exists y. replace (S a + i)%nat with (a + S i)%nat by lia.
  replace (S b + i)%nat with (b + S i)%nat by lia. split; assumption.
Qed.

Lemma byte_eqb_spec (x y : byte) : Bool.reflect (x = y) (Byte.eqb x y).
Proof.
  destruct (Byte.eqb x y) eqn:E; constructor;
    [apply Byte.byte_dec_bl, E | apply Byte.eqb_false, E].
Qed.

Section WithIndex.
Variable hash : list byte -> Z.
Variable idx : delta_index.
Variable T : list byte.

Lemma match_fwd_span fuel off t :
  span idx T off t (match_fwd fuel idx T off t).
Proof.
  revert off t. induction fuel as [| f IH]; intros off t i Hi; cbn [match_fwd] in Hi; [lia |].
  destruct (src_byte idx off) as [x |] eqn:Hx; [| lia].
  destruct (nth_error T t) as [y |] eqn:Hy; [| lia].
  destruct (byte_eqb_spec x y) as [<- | _]; [| lia].
  destruct i as [| i].
  - exists x. rewrite !Nat.add_0_r. auto.
  - destruct (IH (S off) (S t) i ltac:(lia)) as [z Hz].
    exists z. replace (off + S i)%nat with (S off + i)%nat by lia.
    replace (t + S i)%nat with (S t + i)%nat by lia. exact Hz.
Qed.

Lemma match_bwd_spec fuel off t i :
  (i < match_bwd fuel idx T off t)%nat ->
  (i < fuel)%nat /\ (i < off)%nat /\ (i < t)%nat /\
  exists x, src_byte idx (off - S i) = Some x /\ nth_error T (t - S i) = Some x.
Proof.
  revert off t i. induction fuel as [| f IH]; intros off t i Hi; [cbn in Hi; lia |].
  destruct off as [| off']; [cbn in Hi; lia |].
  destruct t as [| t']; [cbn in Hi; lia |].
  cbn [match_bwd] in Hi.
  destruct (src_byte idx off') as [x |] eqn:Hx; [| lia].
  destruct (nth_error T t') as [y |] eqn:Hy; [| lia].
  destruct (byte_eqb_spec x y) as [<- | _]; [| lia].
  destruct i as [| i].
  - split; [lia | split; [lia | split; [lia |]]]. exists x. rewrite !Nat.sub_succ, !Nat.sub_0_r. auto.
  - destruct (IH off' t' i ltac:(lia)) as (H1 & H2 & H3 & z & Hz).
    split; [lia | split; [lia | split; [lia |]]]. exists z. rewrite !Nat.sub_succ. exact Hz.
Qed.

Lemma match_bwd_le fuel off t :
  (match_bwd fuel idx T off t <= fuel)%nat /\ (match_bwd fuel idx T off t <= off)%nat
  /\ (match_bwd fuel idx T off t <= t)%nat.
Proof.
  destruct (match_bwd fuel idx T off t) as [| k] eqn:E; [lia |].
  destruct (match_bwd_spec fuel off t k) as (H1 & H2 & H3 & _); [rewrite E; lia |]. lia.
Qed.

(** A candidate starts inside the pending literal run, ends after the
    cursor and covers equal bytes. *)
Lemma candidate_spec t lit off a b c :
  (lit <= t)%nat -> candidate idx T t lit off = Some (a, b, c) ->
  (lit <= b <= t)%nat /\ (t < b + c)%nat /\ span idx T a b c.
Proof.
  intros Hlt H. unfold candidate in H.
  set (fwd := match_fwd (length T - t) idx T off t) in H.
  set (bwd := match_bwd (t - lit) idx T off t) in H.
  destruct (fwd <? BLOCK)%nat eqn:Hf; [discriminate |]. apply Nat.ltb_ge in Hf.
  injection H as <- <- <-.
  destruct (match_bwd_le (t - lit) off t) as (B1 & B2 & B3). fold bwd in B1, B2, B3.
  unfold BLOCK in Hf.
  split; [lia | split; [lia |]].
  intros i Hi. destruct (Nat.lt_ge_cases i bwd) as [Hb | Hb].
  - destruct (match_bwd_spec (t - lit) off t (bwd - S i)%nat) as (_ & _ & _ & x & Hx1 & Hx2).
    { fold bwd. lia. }
    exists x. replace (off - bwd + i)%nat with (off - S (bwd - S i))%nat by lia.
    replace (t - bwd + i)%nat with (t - S (bwd - S i))%nat by lia. auto.
  - destruct (match_fwd_span (length T - t) off t (i - bwd)%nat) as [x [Hx1 Hx2]].
    { fold fwd. lia. }
    exists x. replace (off - bwd + i)%nat with (off + (i - bwd))%nat by lia.
    replace (t - bwd + i)%nat with (t + (i - bwd))%nat by lia. auto.
Qed.

Lemma best_match_spec (P : nat * nat * nat -> Prop) t lit cands best r :
  (forall off c, candidate idx T t lit off = Some c -> P c) ->
  (forall c, best = Some c -> P c) ->
  best_match idx T t lit cands best = Some r -> P r.
Proof.
  intros Hc. revert best. induction cands as [| off cands IH]; intros best Hb H.
  - cbn in H. apply Hb, H.
  - cbn [best_match] in H. apply IH in H; [exact H |].
    intros c Hc'. destruct (candidate idx T t lit off) as [[[mo ms] ml] |] eqn:E.
    + destruct best as [[[bo bs] bl] |].
      * destruct (bl <? ml)%nat; injection Hc' as <-; [eapply Hc; exact E | apply Hb; reflexivity].
      * injection Hc' as <-. eapply Hc. exact E.
    + apply Hb, Hc'.
Qed.

Lemma find_match_spec t lit a b c :
  (lit <= t)%nat -> find_match hash idx T t lit = Some (a, b, c) ->
  (lit <= b <= t)%nat /\ (t < b + c)%nat /\ span idx T a b c.
Proof.
  intros Hlt H. unfold find_match in H.
  apply (best_match_spec (fun '(a, b, c) => (lit <= b <= t)%nat /\ (t < b + c)%nat /\ span idx T a b c))
    in H; [exact H | | discriminate].
  intros off [[a' b'] c'] Hc. apply (candidate_spec t lit off); assumption.
Qed.

(** Soundness of the source reads against the source buffer [S]. *)
Variable S : list byte.
Hypothesis src_byte_sound : forall p x, src_byte idx p = Some x -> nth_error S p = Some x.

Lemma src_byte_limit p x : src_byte idx p = Some x -> (Z.of_nat p < 2 ^ 32)%Z.
Proof.
  unfold src_byte. destruct (N.of_nat p <? COPY_LIMIT)%N eqn:E; [| discriminate].
  intros _. apply N.ltb_lt in E. apply N2Z.inj_lt in E. rewrite nat_N_Z in E. exact E.
Qed.

Lemma span_copy a b c :
  (1 <= c)%nat -> span idx T a b c ->
  run_ops S (copy_ops a c) = Some (firstn c (skipn b T)) /\ Forall valid_op (copy_ops a c).
Proof.
  intros Hc Hs.
  destruct (Hs (c - 1)%nat ltac:(lia)) as [x [Hx _]].
  pose proof (src_byte_limit _ _ Hx) as Hlim.
  apply src_byte_sound in Hx.
  assert (Hlen : (a + (c - 1) < length S)%nat) by (apply nth_error_Some; congruence).
  destruct (copy_ops_run S a c) as [Hr Hv]; [lia | lia |].
  split; [| exact Hv]. rewrite Hr. f_equal. apply firstn_skipn_agree.
  intros i Hi. destruct (Hs i Hi) as [y [Hy1 Hy2]]. exists y. split; [apply src_byte_sound |]; assumption.
Qed.

Lemma flush_final st :
  loop_inv S T st ->
  run_ops S (ds_ops (append_ops st (flush_literal T (ds_lit st) (length T)))) = Some T
  /\ Forall valid_op (ds_ops (append_ops st (flush_literal T (ds_lit st) (length T)))).
Proof.
  intros (_ & Hr & Hv). unfold append_ops, flush_literal. cbn [ds_ops].
  destruct (insert_ops_run S (firstn (length T - ds_lit st) (skipn (ds_lit st) T))) as [Hi Hiv].
  split.
  - rewrite (run_ops_app _ _ _ _ _ Hr Hi). f_equal.
    rewrite (firstn_all2 (n := (length T - ds_lit st)%nat)) by (rewrite length_skipn; lia).
    apply firstn_skipn.
  - apply Forall_app. split; assumption.
Qed.

Lemma delta_loop_correct fuel st r :
  loop_inv S T st -> delta_loop hash 0 fuel idx T st = Some r ->
  run_ops S (ds_ops r) = Some T /\ Forall valid_op (ds_ops r).
Proof.
  revert st. induction fuel as [| f IH]; intros st Hinv H; cbn [delta_loop] in H.
  - rewrite BuilderSize.emit_all_unbounded in H. injection H as <-. apply flush_final, Hinv.
  - destruct (ds_t st + BLOCK <=? length T)%nat.
    + destruct (find_match hash idx T (ds_t st) (ds_lit st)) as [[[moff mstart] mlen] |] eqn:Hm.
      * destruct (MIN_MATCH <=? mlen)%nat eqn:Hmin.
        -- rewrite BuilderSize.emit_all_unbounded in H. apply IH in H; [exact H |].
           destruct Hinv as (Hlt & Hr & Hv).
           apply find_match_spec in Hm as (Hb & Hc & Hs); [| exact Hlt].
           apply Nat.leb_le in Hmin. unfold MIN_MATCH in Hmin.
           destruct (span_copy moff mstart mlen) as [Hcr Hcv]; [lia | exact Hs |].
           destruct (insert_ops_run S (firstn (mstart - ds_lit st) (skipn (ds_lit st) T))) as [Hi Hiv].
           unfold loop_inv, with_cursor, append_ops, flush_literal. cbn [ds_t ds_lit ds_ops].
           split; [lia | split].
           ++ rewrite app_assoc. rewrite (run_ops_app _ _ _ _ _ (run_ops_app _ _ _ _ _ Hr Hi) Hcr).
              f_equal. rewrite <- firstn_split.
              replace (ds_lit st + (mstart - ds_lit st))%nat with mstart by lia.
              rewrite <- firstn_split. reflexivity.
           ++ rewrite app_assoc. apply Forall_app. split; [| exact Hcv]. apply Forall_app. split; assumption.
        -- apply IH in H; [exact H |]. destruct Hinv as (Hlt & Hr & Hv).
           unfold loop_inv, with_cursor. cbn [ds_t ds_lit ds_ops]. split; [lia | auto].
      * apply IH in H; [exact H |]. destruct Hinv as (Hlt & Hr & Hv).
        unfold loop_inv, with_cursor. cbn [ds_t ds_lit ds_ops]. split; [lia | auto].
    + rewrite BuilderSize.emit_all_unbounded in H. injection H as <-. apply flush_final, Hinv.
Qed.

End WithIndex.

(** The index over a single source reads that source. *)
Lemma src_byte_mk_source hash S p x :
  src_byte (build_index hash (mk_source S) None) p = Some x -> nth_error S p = Some x.
Proof.
  unfold src_byte. destruct (N.of_nat p <? COPY_LIMIT)%N; [| discriminate].
  cbn [build_index sources agg_byte mk_source agg_offset size].
  destruct ((0 <=? p)%nat && (p <? 0 + length S)%nat); [| discriminate].
  rewrite Nat.sub_0_r. auto.
Qed.

Lemma agg_size_mk_source hash S : agg_size (build_index hash (mk_source S) None) = length S.
Proof. unfold agg_size. cbn. lia. Qed.

End RoundTrip.

(** ** The builder's result, capped and uncapped *)
Module DeltaFacts.
Import Varint Index Stream Builder Support BuilderSize RoundTrip StreamFacts OpFacts.

Lemma exceeds_spec m n : exceeds m n = negb ((m =? 0)%nat || (n <=? m)%nat).
Proof.
  unfold exceeds. destruct (Nat.eqb_spec m 0); [reflexivity |]. cbn [negb orb andb].
  destruct (Nat.ltb_spec m n), (Nat.leb_spec n m); try reflexivity; lia.
Qed.

Lemma delta_header_length idx T : (2 <= length (delta_header idx T))%nat.
Proof.
  unfold delta_header. rewrite length_app.
  pose proof (encode_varint_nonempty (Z.of_nat (agg_size idx))).
  pose proof (encode_varint_nonempty (Z.of_nat (length T))). lia.
Qed.

Section WithHash.
Variable hash : list byte -> Z.

(** A stream the builder returns is the header followed by the operations
    of the uncapped pass. *)
Lemma create_delta_run idx T m stream :
  create_delta hash idx T m = Some stream ->
  exists r, delta_loop hash 0 (Datatypes.S (length T)) idx T
      {| ds_t := 0; ds_lit := 0; ds_ops := []; ds_outsize := length (delta_header idx T) |} = Some r
    /\ stream = delta_header idx T ++ concat (map encode_op (ds_ops r)).
Proof.
  unfold create_delta. cbv zeta.
  destruct (exceeds m (length (delta_header idx T))) eqn:He; [discriminate |].
  rewrite delta_loop_bounded by exact He.
  destruct (delta_loop hash 0 _ idx T _) as [r |] eqn:E; [| discriminate].
  destruct (exceeds m (ds_outsize r)); [discriminate |].
  intros H. injection H as <-. eauto.
Qed.

Lemma create_delta_cap idx T :
  exists stream, create_delta hash idx T 0 = Some stream /\ (2 <= length stream)%nat /\
    forall m, create_delta hash idx T m
              = if (m =? 0)%nat || (length stream <=? m)%nat then Some stream else None.
Proof.
  destruct (delta_loop_unbounded_some hash (Datatypes.S (length T)) idx T
    {| ds_t := 0; ds_lit := 0; ds_ops := []; ds_outsize := length (delta_header idx T) |})
    as [r Hr].
  assert (Hinv0 : size_inv (length (delta_header idx T))
    {| ds_t := 0; ds_lit := 0; ds_ops := []; ds_outsize := length (delta_header idx T) |}).
  { unfold size_inv, stream_len. cbn [ds_outsize ds_ops map concat length]. lia. }
  pose proof (delta_loop_size_inv hash _ _ _ _ _ _ Hinv0 Hr) as Hsz. unfold size_inv in Hsz.
  set (stream := delta_header idx T ++ concat (map encode_op (ds_ops r))).
  assert (Hlen : length stream = ds_outsize r)
    by (unfold stream; rewrite length_app, Hsz; reflexivity).
  assert (Hm : forall m, create_delta hash idx T m = if exceeds m (length stream) then None else Some stream).
  { intros m. unfold create_delta. cbv zeta.
    destruct (exceeds m (length (delta_header idx T))) eqn:He.
    - replace (exceeds m (length stream)) with true; [reflexivity |].
      symmetry. eapply exceeds_mono; [| exact He].
      unfold stream. rewrite length_app. lia.
    - rewrite delta_loop_bounded by exact He. rewrite Hr, Hlen.
      destruct (exceeds m (ds_outsize r)); reflexivity. }
  exists stream. split; [| split].
  - rewrite Hm. reflexivity.
  - unfold stream. rewrite length_app. pose proof (delta_header_length idx T). lia.
  - intros m. rewrite Hm, exceeds_spec.
    destruct ((m =? 0)%nat || (length stream <=? m)%nat); reflexivity.
Qed.

(** Every stream built from the index over one source rebuilds the target
    from that source. *)
Lemma create_delta_rebuilds src tgt m stream :
  create_delta hash (build_index hash (mk_source src) None) tgt m = Some stream ->
  exists ops, parse_delta stream = Some (Z.of_nat (length src), Z.of_nat (length tgt), ops)
    /\ run_ops src ops = Some tgt /\ apply_delta src stream = Some tgt
    /\ length tgt = list_sum (map op_len ops).
Proof.
  intros H. apply create_delta_run in H as [r [Hr ->]].
  apply (delta_loop_correct hash _ tgt src (src_byte_mk_source hash src)) in Hr as [Hrun Hval].
  2:{ unfold loop_inv. cbn [ds_t ds_lit ds_ops run_ops firstn].
      split; [lia | split; [reflexivity | constructor]]. }
  exists (ds_ops r).
  assert (Hp : parse_delta (delta_header (build_index hash (mk_source src) None) tgt
                 ++ concat (map encode_op (ds_ops r)))
               = Some (Z.of_nat (length src), Z.of_nat (length tgt), ds_ops r)).
  { unfold parse_delta, delta_header. rewrite agg_size_mk_source, <- app_assoc.
    rewrite decode_encode_varint by lia. rewrite decode_encode_varint by lia.
    rewrite decode_encode_ops; [reflexivity | exact Hval | unfold stream_len; lia]. }
  split; [exact Hp | split; [exact Hrun | split]].
  - unfold apply_delta. rewrite Hp, Z.eqb_refl. cbn [negb]. rewrite Hrun, Z.eqb_refl. reflexivity.
  - apply (run_ops_length _ _ _ Hrun).
Qed.

End WithHash.
End DeltaFacts.

(** * The properties of the specification *)
Module Claims.
Import CInt Hdr Varint Index Stream Builder Support HdrFacts HdrLoop HdrVarint
  IndexFacts DeltaFacts.

(** C1: the varint round-trip fails at [2^31].  The encoding of [2^31] is
    five bytes, the last one [0x08]; reading it computes [8 << 28] on
    [int], which is not representable, so the returned size is undefined
    and not [2^31].  Every value up to [INT_MAX] is read back, with the
    cursor just past its encoding. *)
Theorem get_delta_hdr_size_2pow31_undefined :
  encode_varint (2 ^ 31) = [x80; x80; x80; x80; x08] /\
  get_delta_hdr_size (encode_varint (2 ^ 31)) 0 5 = Returned None 5 /\
  (forall n, 0 <= n <= INT_MAX ->
     get_delta_hdr_size (encode_varint n) 0 (length (encode_varint n))
     = Returned (Some n) (length (encode_varint n))).
Proof.
  split; [vm_compute; reflexivity | split; [vm_compute; reflexivity |]].
  intros n Hn.
  pose proof (get_delta_hdr_size_encode [] n [] (length (encode_varint n)) Hn) as H.
  rewrite !app_nil_r in H. apply H. cbn [length]. lia.
Qed.

(** C2 (counterexample): a one-byte buffer [0x80] ending before a
    terminating byte is not reported: the call returns the size 0 and moves
    the cursor to [top]. *)
Lemma get_delta_hdr_size_truncated_one_byte :
  get_delta_hdr_size [x80] 0 1 = Returned (Some 0) 1.
Proof. reflexivity. Qed.

(** C2: when every byte from [*datap] up to [top] carries the continuation
    bit, [get_delta_hdr_size] has no error to report: it stops with the
    cursor at [top] and returns the value accumulated so far, a defined
    number when at most four bytes were read. *)
Theorem get_delta_hdr_size_truncated_returns_top mem data top :
  (data < top)%nat ->
  (forall j, (data <= j < top)%nat ->
     exists b, nth_error mem j = Some b /\ Z.land (uchar b) 128 <> 0) ->
  exists size, get_delta_hdr_size mem data top = Returned size top /\
    ((top - data <= 4)%nat -> exists v, size = Some v).
Proof.
  intros Hlt Hall. unfold get_delta_hdr_size.
  destruct (hdr_loop_all_continued (skipn data mem) data top (Some 0) (Some 0) Hlt) as [s Hs].
  { intros j Hj. rewrite nth_error_skipn. apply Hall. lia. }
  exists s. split; [exact Hs |]. intros Hle.
  apply (hdr_loop_defined _ _ _ 0 0 _ _ ltac:(lia) ltac:(cbn; lia) Hs). lia.
Qed.

Lemma get_delta_hdr_size_truncated_returns_top_witness :
  exists size, get_delta_hdr_size [x80; xff] 0 2 = Returned size 2 /\
    ((2 - 0 <= 4)%nat -> exists v, size = Some v).
Proof.
  apply (get_delta_hdr_size_truncated_returns_top [x80; xff] 0 2); [lia |].
  intros j Hj. destruct j as [| [| j]]; [exists x80 | exists xff | lia];
    (split; [reflexivity | vm_compute; discriminate]).
Defined.

(** C3: started before [top], [get_delta_hdr_size] depends only on the
    bytes at positions in [[*datap, top)], and the cursor it returns lies
    after [*datap] and at most at [top]. *)
Theorem get_delta_hdr_size_reads_window mem1 mem2 data top :
  (data < top)%nat ->
  (forall p, (data <= p < top)%nat -> nth_error mem1 p = nth_error mem2 p) ->
  get_delta_hdr_size mem1 data top = get_delta_hdr_size mem2 data top /\
  (forall s c, get_delta_hdr_size mem1 data top = Returned s c -> (data < c <= top)%nat).
Proof.
  intros Hlt Hag. unfold get_delta_hdr_size. split.
  - apply hdr_loop_frame; [exact Hlt |]. intros j Hj. rewrite !nth_error_skipn. apply Hag. lia.
  - intros s c H. apply hdr_loop_cursor in H as [H1 H2]. split; [exact H1 | apply H2, Hlt].
Qed.

Lemma get_delta_hdr_size_reads_window_witness :
  get_delta_hdr_size [x85; x01] 0 1 = get_delta_hdr_size [x85; x02] 0 1 /\
  (forall s c, get_delta_hdr_size [x85; x01] 0 1 = Returned s c -> (0 < c <= 1)%nat).
Proof.
  apply get_delta_hdr_size_reads_window; [lia |].
  intros p Hp. destruct p as [| p]; [reflexivity | lia].
Defined.

(** C4: two calls read two varints up to [INT_MAX] in sequence, the
    second starting where the first left the cursor; but a first varint
    [2^31] comes back undefined (the shift [8 << 28] overflows [int]),
    while the second call still reads the following varint. *)
Theorem get_delta_hdr_size_two_calls_2pow31 :
  (forall n1 n2 post top, 0 <= n1 <= INT_MAX -> 0 <= n2 <= INT_MAX ->
     (length (encode_varint n1 ++ encode_varint n2) <= top)%nat ->
     get_delta_hdr_size (encode_varint n1 ++ encode_varint n2 ++ post) 0 top
       = Returned (Some n1) (length (encode_varint n1)) /\
     get_delta_hdr_size (encode_varint n1 ++ encode_varint n2 ++ post)
       (length (encode_varint n1)) top
       = Returned (Some n2) (length (encode_varint n1 ++ encode_varint n2))) /\
  encode_varint (2 ^ 31) ++ encode_varint 1 = [x80; x80; x80; x80; x08; x01] /\
  get_delta_hdr_size (encode_varint (2 ^ 31) ++ encode_varint 1) 0 6 = Returned None 5 /\
  get_delta_hdr_size (encode_varint (2 ^ 31) ++ encode_varint 1) 5 6 = Returned (Some 1) 6.
Proof.
  split; [| split; [vm_compute; reflexivity | split; vm_compute; reflexivity]].
  intros n1 n2 post top H1 H2 Htop. rewrite length_app in Htop |- *. split.
  - pose proof (get_delta_hdr_size_encode [] n1 (encode_varint n2 ++ post) top H1) as H.
    cbn [app length] in H. apply H. lia.
  - apply get_delta_hdr_size_encode; [exact H2 | lia].
Qed.

(** C5: for every source and target, the index over the source is
    obtained, the builder without a cap returns a stream, and every stream
    the builder returns for that index rebuilds the target: its header
    holds the source and target lengths, applying its operations to the
    source gives the target, and the target length is the sum of the
    operation lengths. *)
Theorem create_delta_round_trip hash src tgt :
  (exists idx stream, create_delta_index hash true (mk_source src) None = Some idx /\
     create_delta hash idx tgt 0 = Some stream) /\
  (forall idx m stream,
     create_delta_index hash true (mk_source src) None = Some idx ->
     create_delta hash idx tgt m = Some stream ->
     exists ops, parse_delta stream = Some (Z.of_nat (length src), Z.of_nat (length tgt), ops) /\
       run_ops src ops = Some tgt /\ apply_delta src stream = Some tgt /\
       length tgt = list_sum (map op_len ops)).
Proof.
  split.
  - destruct (create_delta_cap hash (build_index hash (mk_source src) None) tgt)
      as [stream [H _]].
    exists (build_index hash (mk_source src) None), stream. split; [reflexivity | exact H].
  - intros idx m stream Hidx H. injection Hidx as <-.
    apply (create_delta_rebuilds hash src tgt m stream H).
Qed.

Lemma create_delta_round_trip_witness :
  exists ops, parse_delta [x10; x14; x02; x7a; x7a; x90; x10; x02; x7a; x7a]
      = Some (Z.of_nat (length example_source), Z.of_nat (length example_target), ops) /\
    run_ops example_source ops = Some example_target /\
    apply_delta example_source [x10; x14; x02; x7a; x7a; x90; x10; x02; x7a; x7a]
      = Some example_target /\
    length example_target = list_sum (map op_len ops).
Proof.
  apply (proj2 (create_delta_round_trip example_hash example_source example_target)
           (build_index example_hash (mk_source example_source) None) 0%nat);
    vm_compute; reflexivity.
Defined.

(** C6: without a cap the builder returns a stream of some length [N]
    (at least the two header bytes); with a non-zero cap [m] it returns
    that same stream when [N <= m] and [NULL] when [N > m], so it never
    returns a stream longer than the cap; the cap [N] succeeds and [N - 1]
    fails. *)
Theorem create_delta_size_cutoff hash idx T :
  exists stream, create_delta hash idx T 0 = Some stream /\
    (forall m, create_delta hash idx T m
               = if (m =? 0)%nat || (length stream <=? m)%nat then Some stream else None) /\
    (forall m s, m <> 0%nat -> create_delta hash idx T m = Some s -> (length s <= m)%nat) /\
    create_delta hash idx T (length stream) = Some stream /\
    create_delta hash idx T (length stream - 1) = None.
Proof.
  destruct (create_delta_cap hash idx T) as [st [H0 [Hlen Hm]]].
  exists st. split; [exact H0 | split; [exact Hm | split; [| split]]].
  - intros m s Hm0 H. rewrite Hm in H.
    destruct (Nat.eqb_spec m 0) as [E | _]; [contradiction |]. cbn [orb] in H.
    destruct (Nat.leb_spec (length st) m); [injection H as <-; lia | discriminate].
  - rewrite Hm. replace (length st <=? length st)%nat with true
      by (symmetry; apply Nat.leb_le; lia).
    rewrite orb_true_r. reflexivity.
  - rewrite Hm. replace (length st - 1 =? 0)%nat with false
      by (symmetry; apply Nat.eqb_neq; lia).
    replace (length st <=? length st - 1)%nat with false
      by (symmetry; apply Nat.leb_gt; lia).
    reflexivity.
Qed.

(** C7: started before [top], with the bytes up to [top] readable, the
    decoder returns; every return leaves the cursor between [*datap + 1]
    and [top].  Each loop iteration consumes exactly one byte, so the
    iterations and the consumed bytes number [c - *datap <= top - *datap]. *)
Theorem get_delta_hdr_size_bounded_steps mem data top :
  (data < top)%nat ->
  ((top <= length mem)%nat -> exists s c, get_delta_hdr_size mem data top = Returned s c) /\
  (forall s c, get_delta_hdr_size mem data top = Returned s c ->
     (1 <= c - data <= top - data)%nat).
Proof.
  intros Hlt. unfold get_delta_hdr_size. split.
  - intros Hlen. apply hdr_loop_returns; [exact Hlt | rewrite length_skipn; lia].
  - intros s c H. apply hdr_loop_cursor in H as [H1 H2]. specialize (H2 Hlt). lia.
Qed.

Lemma get_delta_hdr_size_bounded_steps_witness :
  ((3 <= length [x80; x80; x01])%nat ->
     exists s c, get_delta_hdr_size [x80; x80; x01] 0 3 = Returned s c) /\
  (forall s c, get_delta_hdr_size [x80; x80; x01] 0 3 = Returned s c ->
     (1 <= c - 0 <= 3 - 0)%nat).
Proof. apply get_delta_hdr_size_bounded_steps. lia. Defined.

(** C8: the index over [s2] chained after the index over [s1] finds, for
    every hash, the offsets of the standalone index over [s1] unchanged,
    followed by those of the standalone index over [s2]; it finds every
    block of [s1] at [agg_offset s1 + o] and every block of [s2] at
    [agg_offset s2 + o], and the offsets from [s2] are exactly those. *)
Theorem build_index_chained hash s1 s2 :
  (forall h, lookup h (build_index hash s2 (Some (build_index hash s1 None)))
             = lookup h (build_index hash s1 None) ++ lookup h (build_index hash s2 None)) /\
  (forall o, In o (block_offsets (size s1)) ->
     In (agg_offset s1 + o)%nat
       (lookup (hash (block_at s1 o)) (build_index hash s2 (Some (build_index hash s1 None))))) /\
  (forall o, In o (block_offsets (size s2)) ->
     In (agg_offset s2 + o)%nat
       (lookup (hash (block_at s2 o)) (build_index hash s2 (Some (build_index hash s1 None))))) /\
  (forall h p, In p (lookup h (build_index hash s2 None)) <->
     exists o, In o (block_offsets (size s2)) /\ hash (block_at s2 o) = h /\
               p = (agg_offset s2 + o)%nat).
Proof.
  split; [| split; [| split]].
  - intros h. apply lookup_chained.
  - intros o Ho. rewrite lookup_chained. apply in_or_app. left. apply lookup_block, Ho.
  - intros o Ho. rewrite lookup_chained. apply in_or_app. right. apply lookup_block, Ho.
  - intros h p. apply lookup_standalone_iff.
Qed.

(** C9: for a source of size zero, [create_delta_index] with a successful
    allocation returns an index whose entries are those of [old] (none
    without [old]), so it adds no match; for every source and every [old],
    the allocation is the only way it can fail. *)
Theorem create_delta_index_empty_source hash src old :
  size src = 0%nat ->
  exists idx, create_delta_index hash true src old = Some idx /\
    entries idx = match old with None => [] | Some o => entries o end /\
    (forall h, lookup h idx = match old with None => [] | Some o => lookup h o end) /\
    (forall src' old', exists idx', create_delta_index hash true src' old' = Some idx').
Proof.
  intros Hs.
  assert (He : source_entries hash src = []) by (unfold source_entries; rewrite Hs; reflexivity).
  exists (build_index hash src old). split; [reflexivity |].
  assert (Hent : entries (build_index hash src old)
                 = match old with None => [] | Some o => entries o end).
  { destruct old as [o |]; cbn [build_index entries]; rewrite He; [apply app_nil_r | reflexivity]. }
  split; [exact Hent | split].
  - intros h. unfold lookup at 1. rewrite Hent. destruct old; reflexivity.
  - intros src' old'. exists (build_index hash src' old'). reflexivity.
Qed.

Lemma create_delta_index_empty_source_witness :
  exists idx, create_delta_index example_hash true
      {| buf := [x01]; size := 0; agg_offset := 7 |} None = Some idx /\
    entries idx = [] /\ (forall h, lookup h idx = []) /\
    (forall src' old', exists idx', create_delta_index example_hash true src' old' = Some idx').
Proof.
  apply (create_delta_index_empty_source example_hash
           {| buf := [x01]; size := 0; agg_offset := 7 |} None).
  reflexivity.
Defined.

(** C10: [get_delta_hdr_size] reads the byte at [*datap] before testing
    [top]: with no byte there the read falls outside the buffer, whatever
    [top]; every return moves the cursor past [*datap]; and when
    [top <= *datap] the call consumes exactly that byte. *)
Theorem get_delta_hdr_size_reads_first mem data top :
  (nth_error mem data = None -> get_delta_hdr_size mem data top = ReadOutsideBuffer) /\
  (forall s c, get_delta_hdr_size mem data top = Returned s c -> (data < c)%nat) /\
  ((top <= data)%nat ->
     get_delta_hdr_size mem data top =
     match nth_error mem data with
     | Some b => Returned (Some (uchar b mod 128)) (Datatypes.S data)
     | None => ReadOutsideBuffer
     end).
Proof.
  assert (Hn : nth_error mem data = nth_error (skipn data mem) 0)
    by (rewrite nth_error_skipn, Nat.add_0_r; reflexivity).
  unfold get_delta_hdr_size. rewrite Hn.
  destruct (skipn data mem) as [| b rest].
  - split; [reflexivity | split; [discriminate | reflexivity]].
  - split; [discriminate | split].
    + intros s c H. apply hdr_loop_cursor in H as [H _]. exact H.
    + intros Hle. rewrite hdr_loop_cons. cbv zeta.
      replace (Datatypes.S data <? top)%nat with false by (symmetry; apply Nat.ltb_ge; lia).
      rewrite andb_false_r. cbn [nth_error].
      destruct b; reflexivity.
Qed.

End Claims.

(** ** The value, the range and the stopping point of the header read *)
Module HdrValue.
Import CInt Hdr Support HdrFacts HdrLoop.

Lemma hdr_loop_none l data top i s c :
  hdr_loop l data top None i = Returned s c -> s = None.
Proof.
  revert data i. induction l as [| b l IH]; intros data i H; [discriminate |].
  rewrite hdr_loop_cons in H. cbv zeta in H. cbn [ulong_or_int] in H.
  destruct (negb (uchar b <? 128) && (S data <? top)%nat).
  - apply IH in H. exact H.
  - injection H as <- _. reflexivity.
Qed.

(** The loop from shift count [k] with [acc] below [2^k] adds the group
    sum of the bytes it consumes. *)
Lemma hdr_loop_value l data top acc k s c :
  0 <= k -> 0 <= acc < 2 ^ k ->
  hdr_loop l data top (Some acc) (Some k) = Returned s c ->
  s = option_map (Z.add acc) (group_sum (firstn (c - data) l) k).
Proof.
  revert data acc k. induction l as [| b l IH]; intros data acc k Hk Hacc H; [discriminate |].
  pose proof (hdr_loop_cursor _ _ _ _ _ _ _ H) as [Hc _].
  replace (firstn (c - data) (b :: l)) with (b :: firstn (c - S data) l)
    by (destruct (c - data)%nat eqn:E; [lia |]; cbn [firstn]; f_equal; f_equal; lia).
  pose proof (uchar_bound b) as Hb.
  assert (Ha : 0 <= uchar b mod 128 < 128) by (apply Z.mod_pos_bound; lia).
  assert (Hpk : 0 < 2 ^ k) by (apply Z.pow_pos_nonneg; lia).
  rewrite hdr_loop_cons in H. cbv zeta in H. cbn [group_sum].
  destruct ((k <? INT_WIDTH) && (uchar b mod 128 * 2 ^ k <=? INT_MAX)) eqn:Hok.
  - apply andb_true_iff in Hok as [Hk1 Hk2].
    apply Z.ltb_lt in Hk1. apply Z.leb_le in Hk2. unfold INT_WIDTH in Hk1.
    rewrite int_shl_small in H by (unfold INT_WIDTH; lia).
    unfold ulong_or_int in H. rewrite ulong_of_int_small in H by nia.
    rewrite lor_low_high in H by lia.
    rewrite int_add_small in H by (unfold INT_MIN, INT_MAX; lia).
    destruct (negb (uchar b <? 128) && (S data <? top)%nat).
    + apply IH in H; [| lia |].
      * rewrite H. destruct (group_sum (firstn (c - S data) l) (k + 7)); cbn [option_map];
          [f_equal; lia | reflexivity].
      * rewrite Z.pow_add_r by lia. change (2 ^ 7) with 128. nia.
    + injection H as <- <-. rewrite Nat.sub_diag. cbn. f_equal. lia.
  - assert (Hshl : int_shl (uchar b mod 128) (Some k) = None).
    { unfold int_shl.
      destruct ((k <? 0) || (INT_WIDTH <=? k) || (uchar b mod 128 <? 0)) eqn:E; [reflexivity |].
      apply orb_false_iff in E as [E1 _]. apply orb_false_iff in E1 as [_ E2].
      apply Z.leb_gt in E2. apply andb_false_iff in Hok as [Hx | Hx].
      - apply Z.ltb_ge in Hx. lia.
      - rewrite Hx. reflexivity. }
    rewrite Hshl in H. cbn [ulong_or_int] in H.
    destruct (negb (uchar b <? 128) && (S data <? top)%nat).
    + apply hdr_loop_none in H. rewrite H. reflexivity.
    + injection H as <- _. reflexivity.
Qed.

Lemma int_shl_range a n t : int_shl a n = Some t -> 0 <= t <= INT_MAX.
Proof.
  unfold int_shl. destruct n as [k |]; [| discriminate].
  destruct ((k <? 0) || (INT_WIDTH <=? k) || (a <? 0)) eqn:E; [discriminate |].
  apply orb_false_iff in E as [E1 E3]. apply orb_false_iff in E1 as [E0 _].
  apply Z.ltb_ge in E0. apply Z.ltb_ge in E3.
  destruct (a * 2 ^ k <=? INT_MAX) eqn:Hv; [| discriminate].
  intros Ht. injection Ht as <-. apply Z.leb_le in Hv.
  pose proof (Z.pow_pos_nonneg 2 k ltac:(lia) E0). nia.
Qed.

Lemma lor_bound (a b n : Z) :
  0 <= n -> 0 <= a < 2 ^ n -> 0 <= b < 2 ^ n -> 0 <= Z.lor a b < 2 ^ n.
Proof.
  intros Hn Ha Hb. split; [apply Z.lor_nonneg; lia |].
  destruct (Z.eq_dec a 0) as [-> | Ha0]; [rewrite Z.lor_0_l; lia |].
  destruct (Z.eq_dec b 0) as [-> | Hb0]; [rewrite Z.lor_0_r; lia |].
  assert (Hpos : 0 < Z.lor a b).
  { pose proof (Z.lor_nonneg a b) as [_ H]. specialize (H (conj (proj1 Ha) (proj1 Hb))).
    destruct (Z.eq_dec (Z.lor a b) 0) as [E | E]; [| lia].
    apply Z.lor_eq_0_l in E. lia. }
  apply Z.log2_lt_pow2; [exact Hpos |].
  rewrite Z.log2_lor by lia.
  apply Z.max_lub_lt; apply Z.log2_lt_pow2; lia.
Qed.

(** A defined value stays an [int] value. *)
Lemma hdr_loop_range l data top acc i v c :
  0 <= acc <= INT_MAX ->
  hdr_loop l data top (Some acc) i = Returned (Some v) c -> 0 <= v <= INT_MAX.
Proof.
  revert data acc i. induction l as [| b l IH]; intros data acc i Hacc H; [discriminate |].
  rewrite hdr_loop_cons in H. cbv zeta in H.
  destruct (int_shl (uchar b mod 128) i) as [t |] eqn:Ht.
  - apply int_shl_range in Ht. cbn [ulong_or_int] in H.
    rewrite ulong_of_int_small in H by exact Ht.
    assert (Hl : 0 <= Z.lor acc t <= INT_MAX).
    { pose proof (lor_bound acc t 31 ltac:(lia)) as Hb. unfold INT_MAX in *. lia. }
    destruct (negb (uchar b <? 128) && (S data <? top)%nat).
    + exact (IH _ _ _ Hl H).
    + injection H as <- _. exact Hl.
  - cbn [ulong_or_int] in H.
    destruct (negb (uchar b <? 128) && (S data <? top)%nat).
    + apply hdr_loop_none in H. discriminate.
    + discriminate.
Qed.

(** Where the loop stops: every consumed byte but the last carries the
    continuation bit, and the last one does not unless the loop reached
    [top]. *)
Lemma hdr_loop_stop l data top size i s c :
  hdr_loop l data top size i = Returned s c ->
  (forall j, (data <= j < c - 1)%nat ->
     exists b, nth_error l (j - data) = Some b /\ 128 <= uchar b) /\
  ((top <= c)%nat \/ exists b, nth_error l (c - 1 - data) = Some b /\ uchar b < 128).
Proof.
  revert data size i. induction l as [| b l IH]; intros data size i H; [discriminate |].
  pose proof (hdr_loop_cursor _ _ _ _ _ _ _ H) as [Hc _].
  rewrite hdr_loop_cons in H. cbv zeta in H.
  destruct (negb (uchar b <? 128) && (S data <? top)%nat) eqn:Hcond.
  - apply andb_true_iff in Hcond as [Hbit _]. apply negb_true_iff, Z.ltb_ge in Hbit.
    pose proof (hdr_loop_cursor _ _ _ _ _ _ _ H) as [Hc' _].
    apply IH in H as [H1 H2]. split.
    + intros j Hj. destruct (Nat.eq_dec j data) as [-> | Hne].
      * exists b. rewrite Nat.sub_diag. auto.
      * destruct (H1 j ltac:(lia)) as [x Hx]. exists x.
        replace (j - data)%nat with (S (j - S data)) by lia. exact Hx.
    + destruct H2 as [H2 | [x Hx]]; [left; exact H2 | right; exists x].
      replace (c - 1 - data)%nat with (S (c - 1 - S data)) by lia. exact Hx.
  - injection H as _ <-. split; [intros j Hj; lia |].
    apply andb_false_iff in Hcond as [Hbit | Htop].
    + right. exists b. rewrite Nat.sub_succ, Nat.sub_0_r, Nat.sub_diag. split; [reflexivity |].
      apply negb_false_iff, Z.ltb_lt in Hbit. exact Hbit.
    + left. apply Nat.ltb_ge in Htop. exact Htop.
Qed.

(** A read ended by a terminating byte gives the same result for every
    bound at or past that byte. *)
Lemma hdr_loop_top_indep l data top top' size i s c b :
  hdr_loop l data top size i = Returned s c ->
  nth_error l (c - 1 - data) = Some b -> uchar b < 128 -> (c <= top')%nat ->
  hdr_loop l data top' size i = Returned s c.
Proof.
  revert data size i. induction l as [| x l IH]; intros data size i H Hb Hterm Htop';
    [discriminate |].
  pose proof (hdr_loop_cursor _ _ _ _ _ _ _ H) as [Hc _].
  rewrite hdr_loop_cons in H |- *. cbv zeta in H |- *.
  destruct (negb (uchar x <? 128) && (S data <? top)%nat) eqn:Hcond.
  - pose proof (hdr_loop_cursor _ _ _ _ _ _ _ H) as [Hc' _].
    apply andb_true_iff in Hcond as [Hbit _].
    replace (S data <? top')%nat with true by (symmetry; apply Nat.ltb_lt; lia).
    rewrite Hbit. cbn [andb]. apply (IH _ _ _ H); [| exact Hterm | exact Htop'].
    replace (c - 1 - data)%nat with (S (c - 1 - S data)) in Hb by lia. exact Hb.
  - pose proof H as H'. injection H' as _ Hcs. subst c.
    rewrite Nat.sub_succ, Nat.sub_0_r, Nat.sub_diag in Hb. cbn [nth_error] in Hb.
    injection Hb as ->. apply Z.ltb_lt in Hterm. rewrite Hterm. cbn [negb andb]. exact H.
Qed.

End HdrValue.

(** * Further properties of [get_delta_hdr_size] *)
Module Extras.
Import CInt Hdr Support HdrValue.

(** X1: the value [get_delta_hdr_size] returns is the group sum of the
    bytes it consumed: byte [k] contributes its low seven bits times
    [2^(7k)], and the value is undefined exactly when one of these shifts
    leaves [int]. *)
Theorem get_delta_hdr_size_value mem data top s c :
  get_delta_hdr_size mem data top = Returned s c ->
  s = group_sum (firstn (c - data) (skipn data mem)) 0.
Proof.
  unfold get_delta_hdr_size. intros H.
  apply hdr_loop_value in H; [| lia | cbn; lia].
  rewrite H. destruct (group_sum (firstn (c - data) (skipn data mem)) 0); reflexivity.
Qed.

Lemma get_delta_hdr_size_value_witness :
  get_delta_hdr_size [x81; x01; x7f] 0 3 = Returned (Some 129) 2 /\
  Some 129 = group_sum (firstn (2 - 0) (skipn 0 [x81; x01; x7f])) 0.
Proof.
  split; [reflexivity |].
  apply (get_delta_hdr_size_value [x81; x01; x7f] 0 3 (Some 129) 2). reflexivity.
Defined.

(** X2: a defined size returned by [get_delta_hdr_size] is at most
    [INT_MAX]; the maximum is reached by [ff ff ff ff 07]. *)
Theorem get_delta_hdr_size_int_range mem data top v c :
  get_delta_hdr_size mem data top = Returned (Some v) c -> 0 <= v <= INT_MAX.
Proof.
  unfold get_delta_hdr_size. apply hdr_loop_range. unfold INT_MAX. lia.
Qed.

Lemma get_delta_hdr_size_int_range_witness :
  get_delta_hdr_size [xff; xff; xff; xff; x07] 0 5 = Returned (Some INT_MAX) 5 /\
  0 <= INT_MAX <= INT_MAX.
Proof.
  split; [reflexivity |].
  apply (get_delta_hdr_size_int_range [xff; xff; xff; xff; x07] 0 5 INT_MAX 5). reflexivity.
Defined.

(** X3: the cursor stops right after the first byte without the
    continuation bit, or at [top]: every consumed byte but the last has
    the bit set, and the last one is clear unless [top <= c]. *)
Theorem get_delta_hdr_size_stop mem data top s c :
  get_delta_hdr_size mem data top = Returned s c ->
  (forall j, (data <= j < c - 1)%nat -> exists b, nth_error mem j = Some b /\ 128 <= uchar b) /\
  ((top <= c)%nat \/ exists b, nth_error mem (c - 1) = Some b /\ uchar b < 128).
Proof.
  unfold get_delta_hdr_size. intros H.
  pose proof (HdrLoop.hdr_loop_cursor _ _ _ _ _ _ _ H) as [Hc _].
  apply hdr_loop_stop in H as [H1 H2]. split.
  - intros j Hj. destruct (H1 j Hj) as [b Hb]. exists b.
    rewrite nth_error_skipn in Hb. replace (data + (j - data))%nat with j in Hb by lia. exact Hb.
  - destruct H2 as [H2 | [b Hb]]; [left; exact H2 | right; exists b].
    rewrite nth_error_skipn in Hb. replace (data + (c - 1 - data))%nat with (c - 1)%nat in Hb by lia.
    exact Hb.
Qed.

Lemma get_delta_hdr_size_stop_witness :
  get_delta_hdr_size [x80; x81; x05; x80] 0 4 = Returned (Some 82048) 3 /\
  (forall j, (0 <= j < 3 - 1)%nat ->
     exists b, nth_error [x80; x81; x05; x80] j = Some b /\ 128 <= uchar b) /\
  ((4 <= 3)%nat \/ exists b, nth_error [x80; x81; x05; x80] (3 - 1) = Some b /\ uchar b < 128).
Proof.
  split; [reflexivity |].
  apply (get_delta_hdr_size_stop [x80; x81; x05; x80] 0 4 (Some 82048) 3). reflexivity.
Defined.

(** X4: once a byte without the continuation bit ends the read at cursor
    [c], the call gives the same size and cursor for every [top] with
    [c <= top]. *)
Theorem get_delta_hdr_size_top_indep mem data top top' s c b :
  get_delta_hdr_size mem data top = Returned s c ->
  nth_error mem (c - 1) = Some b -> uchar b < 128 -> (c <= top')%nat ->
  get_delta_hdr_size mem data top' = Returned s c.
Proof.
  unfold get_delta_hdr_size. intros H Hb Hterm Htop.
  pose proof (HdrLoop.hdr_loop_cursor _ _ _ _ _ _ _ H) as [Hc _].
  apply (hdr_loop_top_indep _ _ _ _ _ _ _ _ b H); [| exact Hterm | exact Htop].
  rewrite nth_error_skipn. replace (data + (c - 1 - data))%nat with (c - 1)%nat by lia. exact Hb.
Qed.

Lemma get_delta_hdr_size_top_indep_witness :
  get_delta_hdr_size [x81; x01] 0 2 = Returned (Some 129) 2 /\
  get_delta_hdr_size [x81; x01] 0 100 = Returned (Some 129) 2.
Proof.
  split; [reflexivity |].
  apply (get_delta_hdr_size_top_indep [x81; x01] 0 2 100 (Some 129) 2 x01);
    [reflexivity | reflexivity | vm_compute; reflexivity | lia].
Defined.

End Extras.
